(** * Forward Africa backend: authentication and authorization core

    A shallow embedding of
      - backend/lib/rolePermissions.js  (role table, [getPermissionsForRole]),
      - backend/lib/permissions.js      ([parsePermissions],
                                         [getUserPermissions]),
      - backend/middleware/auth.js      ([rateLimit], [authenticateToken],
                                         token generation and verification),
      - backend/routes/secureRoutes.js  (the /auth/login, /auth/refresh and
                                         /auth/logout handlers),
    followed by the properties of the specification that concern them.

    Conventions.  Times are integers: [now] is [Date.now()] in milliseconds,
    JWT [iat]/[exp] are seconds, and the database clock is the process
    clock.  The [users] table is a list of rows; a [SELECT ... WHERE] is a
    filter (text columns compared exactly) and an [UPDATE ... WHERE id = ?]
    rewrites every row with that id.  A handler reads the table once and
    then only writes, so it is modelled as a function from the table it
    reads to its HTTP response and the ordered log of its effects (SQL
    updates and bcrypt comparisons); the table after the request is the log
    replayed on it.  A request is served at one instant.  Database and
    network failures (the handlers' outer [catch], status 500) and the
    [auditLog] middleware, which writes to another table after the response
    is sent, are left out. *)

From Stdlib Require Import ZArith String Ascii List Bool Lia Sorted.
From stdpp Require Import gmap strings list.
Import ListNotations.
Local Open Scope string_scope.
Local Open Scope Z_scope.
Local Open Scope list_scope.

Set Warnings "-register-all".

(** ** JavaScript values *)

(** The values a MySQL column or [JSON.parse] can hand to the code.  Numbers
    are integers here; [JNull] stands for both [null] and [undefined]. *)
Inductive jsval : Type :=
  | JNull
  | JBool (b : bool)
  | JNum (n : Z)
  | JStr (s : string)
  | JArr (items : list jsval)
  | JObj (fields : list (string * jsval)).

(** [!v] is [negb (truthy v)]. *)
Definition truthy (v : jsval) : bool :=
  match v with
  | JNull => false
  | JBool b => b
  | JNum n => negb (n =? 0)
  | JStr s => negb (String.eqb s EmptyString)
  | JArr _ | JObj _ => true
  end.


(** SameValueZero, the equality a JS [Set] uses.  Arrays and objects are
    compared by identity; the ones met here are distinct allocations. *)
Definition same_value_zero (a b : jsval) : bool :=
  match a, b with
  | JNull, JNull => true
  | JBool x, JBool y => Bool.eqb x y
  | JNum x, JNum y => x =? y
  | JStr x, JStr y => String.eqb x y
  | _, _ => false
  end.

(** [Array.from(new Set(l))]: first occurrences, in insertion order. *)
Definition set_add (acc : list jsval) (x : jsval) : list jsval :=
  if existsb (same_value_zero x) acc then acc else acc ++ [x].

Definition array_from_set (l : list jsval) : list jsval :=
  fold_left set_add l [].

(** [Math.ceil(x / d)] for integers [x] and a positive [d]. *)
Definition ceil_div (x d : Z) : Z := - ((- x) / d).

(** *** String helpers: [includes(',')], [split(',')], [trim()] *)

Definition comma : ascii := ","%char.

Fixpoint includes_char (c : ascii) (s : string) : bool :=
  match s with
  | EmptyString => false
  | String d rest => Ascii.eqb c d || includes_char c rest
  end.

Fixpoint split_char (sep : ascii) (s : string) : list string :=
  match s with
  | EmptyString => [EmptyString]
  | String c rest =>
      if Ascii.eqb c sep then EmptyString :: split_char sep rest
      else match split_char sep rest with
           | [] => [String c EmptyString]
           | piece :: pieces => String c piece :: pieces
           end
  end.

(** ASCII white space: tab, line feed, vertical tab, form feed, carriage
    return, space. *)
Definition is_space (c : ascii) : bool :=
  let n := nat_of_ascii c in
  ((9 <=? n)%nat && (n <=? 13)%nat) || (n =? 32)%nat.

Fixpoint trim_left (s : string) : string :=
  match s with
  | EmptyString => EmptyString
  | String c rest => if is_space c then trim_left rest else s
  end.

Fixpoint trim_right (s : string) : string :=
  match s with
  | EmptyString => EmptyString
  | String c rest =>
      match trim_right rest with
      | EmptyString => if is_space c then EmptyString else String c EmptyString
      | kept => String c kept
      end
  end.

Definition trim (s : string) : string := trim_right (trim_left s).

(** ** The platform the code runs on

    Process configuration (the [process.env] values; [sample_env] below has
    the defaults of auth.js), and the two library functions the code calls:
    [bcrypt.compare] and [JSON.parse] ([None] when it throws). *)
Class Env : Type := {
  JWT_SECRET : string;
  JWT_EXPIRES_IN : Z;
  REFRESH_TOKEN_EXPIRES_IN : Z;
  bcrypt_compare : string -> string -> bool;
  JSON_parse : string -> option jsval
}.

(** ** backend/lib/rolePermissions.js *)

Definition ROLE_PERMISSIONS : list (string * list string) :=
  [ ("user",
      [ "courses:view"; "courses:take"; "profile:edit"; "certificates:view";
        "achievements:view"; "progress:view" ]);
    ("content_manager",
      [ "courses:view"; "courses:take"; "analytics:view"; "content:edit";
        "content:delete"; "content:create"; "instructors:manage";
        "media:upload"; "content:review"; "content:publish";
        "content:workflow"; "profile:edit"; "certificates:view";
        "achievements:view"; "progress:view" ]);
    ("community_manager",
      [ "courses:view"; "courses:take"; "analytics:view"; "users:manage";
        "users:view"; "users:suspend"; "users:activate"; "users:ban";
        "users:unban"; "community:moderate"; "support:handle";
        "support:view_tickets"; "support:respond_tickets";
        "users:view_activity"; "profile:edit"; "certificates:view";
        "achievements:view"; "progress:view" ]);
    ("user_support",
      [ "courses:view"; "courses:take"; "analytics:view"; "support:handle";
        "support:view_tickets"; "support:respond_tickets";
        "support:close_tickets"; "community:moderate_basic";
        "users:view_profile"; "users:view_activity"; "profile:edit";
        "certificates:view"; "achievements:view"; "progress:view" ]);
    ("super_admin",
      [ "courses:view"; "courses:take"; "analytics:view"; "content:edit";
        "content:delete"; "content:create"; "instructors:manage";
        "media:upload"; "content:review"; "content:publish";
        "content:workflow"; "users:manage"; "users:view"; "users:suspend";
        "users:activate"; "users:ban"; "users:unban"; "community:moderate";
        "support:handle"; "support:view_tickets"; "support:respond_tickets";
        "support:close_tickets"; "users:view_activity"; "audit:view";
        "audit:export"; "system:configure"; "system:backup";
        "system:maintenance"; "admins:create"; "super_admins:manage";
        "security:configure"; "database:manage"; "profile:edit";
        "certificates:view"; "achievements:view"; "progress:view" ]) ].

(** The own property [key] of an object literal, if it has one. *)
Fixpoint property {A} (table : list (string * A)) (key : string) : option A :=
  match table with
  | [] => None
  | (k, v) :: rest => if String.eqb k key then Some v else property rest key
  end.

(** [array.includes(x)] on an array of strings. *)
Definition includes (array : list string) (x : string) : bool :=
  existsb (String.eqb x) array.

(** The names of the members of [Object.prototype] (ECMAScript 2015 and
    later, Annex B included).  The tables of this module are object
    literals and inherit them: for such a name, [table[key]] is a function
    -- for [__proto__], the prototype object -- unless the literal has a
    property of that name itself. *)
Definition Object_prototype : list string :=
  [ "constructor"; "__defineGetter__"; "__defineSetter__"; "hasOwnProperty";
    "__lookupGetter__"; "__lookupSetter__"; "isPrototypeOf";
    "propertyIsEnumerable"; "toString"; "valueOf"; "__proto__";
    "toLocaleString" ].

(** What [table[key]] evaluates to. *)
Inductive member (A : Type) : Type :=
  | Own (value : A)
  | Inherited (name : string)
  | Undefined.
Arguments Own {A} value.
Arguments Inherited {A} name.
Arguments Undefined {A}.

(** [table[key]] for an object literal [table]. *)
Definition js_get {A} (table : list (string * A)) (key : string) : member A :=
  match property table key with
  | Some value => Own value
  | None => if includes Object_prototype key then Inherited key else Undefined
  end.

(** What the code takes for an array: an array, or a member of
    [Object.prototype].  Such a member is truthy, is not iterable and has
    no [includes] method, so spreading it or calling [includes] on it throws
    a [TypeError]. *)
Inductive looked_up (A : Type) : Type :=
  | Array (items : list A)
  | Member (name : string).
Arguments Array {A} items.
Arguments Member {A} name.

(** The completion of a call: a value, or a thrown [TypeError].  Nothing in
    these two modules catches it. *)
Inductive outcome (A : Type) : Type :=
  | Return (value : A)
  | TypeError.
Arguments Return {A} value.
Arguments TypeError {A}.

(** [value.includes(x)], for the [includes] of the arrays in question. *)
Definition call_includes {A} (array_includes : list A -> A -> bool)
    (value : looked_up A) (x : A) : outcome bool :=
  match value with
  | Array items => Return (array_includes items x)
  | Member _ => TypeError
  end.

(** [array.some(callback)] and [array.every(callback)]: the callback is
    called element by element until the answer is known. *)
Fixpoint some {A} (callback : A -> outcome bool) (array : list A)
  : outcome bool :=
  match array with
  | [] => Return false
  | x :: rest =>
      match callback x with
      | Return true => Return true
      | Return false => some callback rest
      | TypeError => TypeError
      end
  end.

Fixpoint every {A} (callback : A -> outcome bool) (array : list A)
  : outcome bool :=
  match array with
  | [] => Return true
  | x :: rest =>
      match callback x with
      | Return true => every callback rest
      | Return false => Return false
      | TypeError => TypeError
      end
  end.

(** [ROLE_PERMISSIONS[role] || ROLE_PERMISSIONS.user]: arrays and inherited
    members are truthy, [undefined] is not. *)
Definition getPermissionsForRole (role : string) : looked_up string :=
  match js_get ROLE_PERMISSIONS role with
  | Own permissions => Array permissions
  | Inherited name => Member name
  | Undefined => Array (default [] (property ROLE_PERMISSIONS "user"))
  end.

Definition hasPermission (role permission : string) : outcome bool :=
  let permissions := getPermissionsForRole role in
  call_includes includes permissions permission.

Definition hasAnyPermission (role : string) (permissions : list string)
  : outcome bool :=
  let rolePermissions := getPermissionsForRole role in
  some (fun permission => call_includes includes rolePermissions permission)
       permissions.

Definition hasAllPermissions (role : string) (permissions : list string)
  : outcome bool :=
  let rolePermissions := getPermissionsForRole role in
  every (fun permission => call_includes includes rolePermissions permission)
        permissions.

(** [allPermissions.add(permission)] on a [Set] of strings kept in
    insertion order. *)
Definition string_set_add (set : list string) (x : string) : list string :=
  if includes set x then set else set ++ [x].

(** [Array.prototype.sort()] without a comparator: ascending order of the
    code units.  The arrays sorted here have no duplicates, so the result
    does not depend on the sorting algorithm. *)
Fixpoint sort_insert (x : string) (sorted : list string) : list string :=
  match sorted with
  | [] => [x]
  | y :: rest =>
      if String.leb x y then x :: sorted else y :: sort_insert x rest
  end.

Definition js_sort (array : list string) : list string :=
  fold_right sort_insert [] array.

Definition getAllPermissions : list string :=
  let allPermissions :=
    fold_left (fun set permissions => fold_left string_set_add permissions set)
              (map snd ROLE_PERMISSIONS) [] in
  js_sort allPermissions.

(** [Object.keys(ROLE_PERMISSIONS)] *)
Definition getAllRoles : list string := map fst ROLE_PERMISSIONS.

(** The [roleHierarchy] literal of [canManageRole]. *)
Definition canManageRole_hierarchy : list (string * list string) :=
  [ ("super_admin", [ "user"; "content_manager"; "community_manager";
                      "user_support"; "super_admin" ]);
    ("community_manager", [ "user"; "user_support" ]);
    ("content_manager", [ "user" ]);
    ("user_support", [ "user" ]);
    ("user", []) ].

(** [roleHierarchy[currentRole]?.includes(targetRole) || false]: the
    optional chain stops at [undefined] only; on an inherited member it
    calls an [includes] that is not there. *)
Definition canManageRole (currentRole targetRole : string) : outcome bool :=
  match js_get canManageRole_hierarchy currentRole with
  | Own roles => Return (includes roles targetRole || false)
  | Inherited _ => TypeError
  | Undefined => Return false
  end.

(** The [roleHierarchy] literal of [getManageableRoles], written out a
    second time in the source. *)
Definition getManageableRoles_hierarchy : list (string * list string) :=
  [ ("super_admin", [ "user"; "content_manager"; "community_manager";
                      "user_support"; "super_admin" ]);
    ("community_manager", [ "user"; "user_support" ]);
    ("content_manager", [ "user" ]);
    ("user_support", [ "user" ]);
    ("user", []) ].

(** [roleHierarchy[role] || []] *)
Definition getManageableRoles (role : string) : looked_up string :=
  match js_get getManageableRoles_hierarchy role with
  | Own roles => Array roles
  | Inherited name => Member name
  | Undefined => Array []
  end.

Definition isValidPermission (permission : string) : bool :=
  let allPermissions := getAllPermissions in
  includes allPermissions permission.

Definition isValidRole (role : string) : bool :=
  includes getAllRoles role.

(** ** backend/lib/permissions.js *)

Definition full_access : jsval := JStr "system:full_access".

(** The callback of [permissions.map] in the array branch. *)
Definition normalize_all (permission : jsval) : jsval :=
  match permission with
  | JStr s => if String.eqb s "all" then full_access else permission
  | _ => permission
  end.

(** [s.split(',').map(p => p.trim())] *)
Definition split_trim (s : string) : list jsval :=
  map (fun p => JStr (trim p)) (split_char comma s).

(** The [catch] branch for a string that is not JSON. *)
Definition legacy_permissions (s : string) : list jsval :=
  if String.eqb s "all" then [full_access]
  else if includes_char comma s then split_trim s
  else [JStr s].

(** The branch for a plain object: [Object.values(permissions)]. *)
Definition object_permissions (fields : list (string * jsval)) : list jsval :=
  let values := map snd fields in
  match values with
  | [value] =>
      match value with
      | JStr s =>
          if String.eqb s "all" then [full_access]
          else if includes_char comma s then split_trim s
          else [value]
      | _ => [value]
      end
  | _ => values
  end.

(** [parsePermissions], with the depth of its recursion made explicit.  It
    recurses only on the result of [JSON.parse], and again only when that
    result is itself a string. *)
Fixpoint parsePermissions_depth `{Env} (depth : nat) (permissions : jsval)
  : list jsval :=
  if negb (truthy permissions) then []
  else match permissions with
       | JArr items => map normalize_all items
       | JStr s =>
           match JSON_parse s with
           | Some parsed =>
               match depth with
               | O => []
               | S depth' => parsePermissions_depth depth' parsed
               end
           | None => legacy_permissions s
           end
       | JObj fields => object_permissions fields
       | _ => []
       end.

(** A string of length [n] can hold at most [n] nested string literals. *)
Definition nesting_bound (v : jsval) : nat :=
  match v with
  | JStr s => S (String.length s)
  | _ => 1%nat
  end.

Definition parsePermissions `{Env} (permissions : jsval) : list jsval :=
  parsePermissions_depth (nesting_bound permissions) permissions.

(** [getUserPermissions].  Without stored permissions it returns what
    [getPermissionsForRole] returned, as it is; with them it spreads that
    into a [Set], after the stored ones have been parsed. *)
Definition getUserPermissions `{Env} (role : string) (storedPermissions : jsval)
  : outcome (looked_up jsval) :=
  let rolePermissions := getPermissionsForRole role in
  if negb (truthy storedPermissions) then
    Return match rolePermissions with
           | Array items => Array (map JStr items)
           | Member name => Member name
           end
  else
    let parsedStoredPermissions := parsePermissions storedPermissions in
    match rolePermissions with
    | Array items =>
        Return (Array (array_from_set
                         (map JStr items ++ parsedStoredPermissions)))
    | Member _ => TypeError
    end.

(** [array.includes(x)] on an array of values: SameValueZero. *)
Definition includes_value (array : list jsval) (x : jsval) : bool :=
  existsb (same_value_zero x) array.

Definition userHasPermission `{Env} (role permission : string)
    (storedPermissions : jsval) : outcome bool :=
  match getUserPermissions role storedPermissions with
  | Return userPermissions =>
      call_includes includes_value userPermissions (JStr permission)
  | TypeError => TypeError
  end.

Definition userHasAnyPermission `{Env} (role : string)
    (permissions : list string) (storedPermissions : jsval) : outcome bool :=
  match getUserPermissions role storedPermissions with
  | Return userPermissions =>
      some (fun permission =>
              call_includes includes_value userPermissions (JStr permission))
           permissions
  | TypeError => TypeError
  end.

Definition userHasAllPermissions `{Env} (role : string)
    (permissions : list string) (storedPermissions : jsval) : outcome bool :=
  match getUserPermissions role storedPermissions with
  | Return userPermissions =>
      every (fun permission =>
               call_includes includes_value userPermissions (JStr permission))
            permissions
  | TypeError => TypeError
  end.

(** The result object of [validatePermissionsForRole]. *)
Record validation : Type := {
  valid : list string;
  invalid : list string;
  isValid : bool
}.

(** The [forEach] of [validatePermissionsForRole], on the two arrays it
    pushes to. *)
Fixpoint validate_each (rolePermissions : looked_up string)
    (permissions : list string) (pushed : list string * list string)
  : outcome (list string * list string) :=
  match permissions with
  | [] => Return pushed
  | permission :: rest =>
      match call_includes includes rolePermissions permission with
      | Return true =>
          validate_each rolePermissions rest
            (fst pushed ++ [permission], snd pushed)
      | Return false =>
          validate_each rolePermissions rest
            (fst pushed, snd pushed ++ [permission])
      | TypeError => TypeError
      end
  end.

Definition validatePermissionsForRole (role : string)
    (permissions : list string) : outcome validation :=
  let rolePermissions := getPermissionsForRole role in
  match validate_each rolePermissions permissions ([], []) with
  | Return pushed =>
      Return {| valid := fst pushed; invalid := snd pushed;
                isValid := Nat.eqb (length (snd pushed)) 0 |}
  | TypeError => TypeError
  end.

(** ** backend/middleware/auth.js *)

(** *** JSON web tokens

    [jsonwebtoken] with HS256 is deterministic: the token string is a
    function of the payload and the secret, and it verifies under a secret
    exactly when it was signed with it.  A token is therefore its payload
    together with its signing key; every other string is [Opaque].  The
    payload has the claims the two generators write, and the [exp] that
    [jwt.sign] adds for [expiresIn]. *)
Record claims : Type := {
  userId : Z;
  claim_role : option string;
  claim_type : option string;
  iat : Z;
  exp : Z
}.

Inductive token : Type :=
  | Opaque (text : string)
  | Jwt (key : string) (payload : claims).

Global Instance claims_eq_dec : EqDecision claims.
Proof. solve_decision. Defined.

Global Instance token_eq_dec : EqDecision token.
Proof. solve_decision. Defined.

(** [!token] for a request field: missing or the empty string. *)
Definition token_missing (t : token) : bool :=
  match t with
  | Opaque text => String.eqb text EmptyString
  | Jwt _ _ => false
  end.

Inductive jwt_error : Type := JsonWebTokenError | TokenExpiredError.

(** [jwt.sign(payload, secret, { expiresIn })]: [exp = iat + expiresIn]. *)
Definition jwt_sign (uid : Z) (role type : option string) (issued : Z)
    (secret : string) (expiresIn : Z) : token :=
  Jwt secret {| userId := uid; claim_role := role; claim_type := type;
                iat := issued; exp := issued + expiresIn |}.

(** [jwt.verify(token, secret)] at clock [now]: signature first, then
    [Math.floor(now / 1000) >= exp]. *)
Definition jwt_verify (t : token) (secret : string) (now : Z)
  : jwt_error + claims :=
  match t with
  | Opaque _ => inl JsonWebTokenError
  | Jwt key payload =>
      if String.eqb key secret
      then if exp payload <=? now / 1000 then inl TokenExpiredError
           else inr payload
      else inl JsonWebTokenError
  end.

(** [sanitizeParam] turns [undefined], [null] and blank strings into
    [null]; a number is returned as it is. *)
Definition sanitizeParam (param : Z) : Z := param.

(** [validateUserId]: [!userId] rejects 0, and [parseInt] of an integer is
    the integer. *)
Definition validateUserId (uid : Z) : bool :=
  if uid =? 0 then false else 0 <? uid.

(** [generateToken]; [None] when it throws. *)
Definition generateToken `{Env} (uid : Z) (role : string) (now : Z)
  : option token :=
  if negb (validateUserId uid) then None
  else if String.eqb role EmptyString then None
  else Some (jwt_sign uid (Some role) None (now / 1000)
               JWT_SECRET JWT_EXPIRES_IN).

(** [generateRefreshToken]; [None] when it throws. *)
Definition generateRefreshToken `{Env} (uid : Z) (now : Z) : option token :=
  if negb (validateUserId uid) then None
  else Some (jwt_sign uid None (Some "refresh") (now / 1000)
               JWT_SECRET REFRESH_TOKEN_EXPIRES_IN).

(** [verifyRefreshToken]; [None] when it throws (whatever the error, the
    caller's [catch] does not look at it). *)
Definition verifyRefreshToken `{Env} (refreshToken : token) (now : Z)
  : option claims :=
  match jwt_verify refreshToken JWT_SECRET now with
  | inl _ => None
  | inr decoded =>
      if negb (bool_decide (claim_type decoded = Some "refresh")) then None
      else if negb (validateUserId (userId decoded)) then None
      else Some decoded
  end.

(** [comparePassword] *)
Definition comparePassword `{Env} (password hash : string) : bool :=
  bcrypt_compare password hash.

(** *** The users table *)

Record user : Type := {
  id : Z;
  email : string;
  full_name : string;
  password : string;
  role : string;                      (* NULL is the empty string: both falsy *)
  permissions : jsval;
  is_active : bool;
  failed_login_attempts : Z;
  last_failed_login : option Z;       (* TIMESTAMP NULL, as [getTime()] *)
  last_login : option Z;
  refresh_token : option token        (* TEXT NULL *)
}.

(** [NOW()] stored in a TIMESTAMP column and read back with [getTime()]:
    whole seconds. *)
Definition sql_now (now : Z) : Z := 1000 * (now / 1000).

(** [new Date(column).getTime()]; [new Date(null)] is the epoch. *)
Definition getTime (column : option Z) : Z := default 0 column.

(** The four UPDATE statements of the authentication routes, each
    [... WHERE id = uid]. *)
Inductive update : Type :=
  | ResetFailedAttempts (uid : Z)
      (* SET failed_login_attempts = 0 *)
  | RecordFailedLogin (uid : Z) (now : Z)
      (* SET failed_login_attempts = failed_login_attempts + 1,
             last_failed_login = NOW() *)
  | RecordSuccessfulLogin (uid : Z) (now : Z)
      (* SET failed_login_attempts = 0, last_login = NOW() *)
  | SetRefreshToken (uid : Z) (value : option token).
      (* SET refresh_token = ? , or NULL *)

Definition update_target (u : update) : Z :=
  match u with
  | ResetFailedAttempts uid | RecordFailedLogin uid _
  | RecordSuccessfulLogin uid _ | SetRefreshToken uid _ => uid
  end.

Definition update_row (u : update) (row : user) : user :=
  match u with
  | ResetFailedAttempts _ =>
      {| id := id row; email := email row; full_name := full_name row;
         password := password row; role := role row;
         permissions := permissions row; is_active := is_active row;
         failed_login_attempts := 0;
         last_failed_login := last_failed_login row;
         last_login := last_login row; refresh_token := refresh_token row |}
  | RecordFailedLogin _ now =>
      {| id := id row; email := email row; full_name := full_name row;
         password := password row; role := role row;
         permissions := permissions row; is_active := is_active row;
         failed_login_attempts := failed_login_attempts row + 1;
         last_failed_login := Some (sql_now now);
         last_login := last_login row; refresh_token := refresh_token row |}
  | RecordSuccessfulLogin _ now =>
      {| id := id row; email := email row; full_name := full_name row;
         password := password row; role := role row;
         permissions := permissions row; is_active := is_active row;
         failed_login_attempts := 0;
         last_failed_login := last_failed_login row;
         last_login := Some (sql_now now); refresh_token := refresh_token row |}
  | SetRefreshToken _ value =>
      {| id := id row; email := email row; full_name := full_name row;
         password := password row; role := role row;
         permissions := permissions row; is_active := is_active row;
         failed_login_attempts := failed_login_attempts row;
         last_failed_login := last_failed_login row;
         last_login := last_login row; refresh_token := value |}
  end.

Definition exec_update (u : update) (users : list user) : list user :=
  map (fun row => if id row =? update_target u then update_row u row else row)
      users.

(** What a handler does besides answering. *)
Inductive effect : Type :=
  | Sql (u : update)
  | BcryptCompare (password hash : string).

Definition exec_effect (users : list user) (e : effect) : list user :=
  match e with
  | Sql u => exec_update u users
  | BcryptCompare _ _ => users
  end.

Definition replay (log : list effect) (users : list user) : list user :=
  fold_left exec_effect log users.

(** *** HTTP responses *)

Record userData : Type := {
  data_id : Z;
  data_email : string;
  data_full_name : string;
  data_role : string;
  data_permissions : list jsval
}.

Inductive json : Type :=
  | Failure (error code : string)
  | FailureRetry (error code : string) (retryAfter : Z)
  | LoginSuccessful (message : string) (accessToken refreshToken : token)
                    (data : userData)
  | TokenRefreshed (message : string) (accessToken refreshToken : token)
  | LogoutSuccessful (message : string).

Record response : Type := { status : Z; body : json }.

Definition reply (code : Z) (b : json) : response :=
  {| status := code; body := b |}.

(** *** [authenticateToken]

    Either answers itself ([inl]) or sets [req.user] and calls [next()]. *)
Record req_user : Type := {
  req_id : Z;
  req_email : string;
  req_full_name : string;
  req_role : string;
  req_permissions : list jsval;
  req_last_login : option Z
}.

Definition authenticateToken `{Env} (users : list user) (now : Z)
    (bearer : token) : response + req_user :=
  if token_missing bearer then
    inl (reply 401 (Failure "Access token required" "TOKEN_MISSING"))
  else
    match jwt_verify bearer JWT_SECRET now with
    | inl JsonWebTokenError =>
        inl (reply 401 (Failure "Invalid token" "TOKEN_INVALID"))
    | inl TokenExpiredError =>
        inl (reply 401 (Failure "Token expired" "TOKEN_EXPIRED"))
    | inr decoded =>
        if negb (exp decoded =? 0) && (exp decoded * 1000 <=? now) then
          inl (reply 401 (Failure "Token expired" "TOKEN_EXPIRED"))
        else if negb (validateUserId (userId decoded)) then
          inl (reply 401 (Failure "Invalid token payload" "TOKEN_INVALID"))
        else
          let sanitizedUserId := sanitizeParam (userId decoded) in
          if sanitizedUserId =? 0 then
            inl (reply 401 (Failure "Invalid token payload" "TOKEN_INVALID"))
          else
            match filter (fun u => id u = sanitizedUserId /\ is_active u = true)
                         users with
            | [] =>
                inl (reply 401 (Failure "User account not found or inactive"
                                        "USER_NOT_FOUND"))
            | user :: _ =>
                if negb (is_active user) then
                  inl (reply 403 (Failure "Account is suspended"
                                          "ACCOUNT_SUSPENDED"))
                else
                  inr {| req_id := id user; req_email := email user;
                         req_full_name := full_name user;
                         req_role := role user;
                         req_permissions := parsePermissions (permissions user);
                         req_last_login := last_login user |}
            end
    end.

(** *** [rateLimit]

    [rateLimitStore] is one module-level [Map] from [req.ip] to a mutable
    record; every middleware made by [rateLimit(maxRequests, windowMs)]
    reads and writes it.  [None] is [next()]. *)
Record rate_record : Type := { count : Z; resetTime : Z }.

Definition rateLimit (maxRequests windowMs : Z) (key : string) (now : Z)
    (rateLimitStore : gmap string rate_record)
  : gmap string rate_record * option response :=
  match rateLimitStore !! key with
  | None =>
      (<[key := {| count := 1; resetTime := now + windowMs |}]> rateLimitStore,
       None)
  | Some record =>
      let record' :=
        if resetTime record <? now
        then {| count := 1; resetTime := now + windowMs |}
        else {| count := count record + 1; resetTime := resetTime record |} in
      let store' := <[key := record']> rateLimitStore in
      if maxRequests <? count record' then
        (store',
         Some (reply 429 (FailureRetry "Too many requests" "RATE_LIMIT_EXCEEDED"
                            (ceil_div (resetTime record' - now) 1000))))
      else (store', None)
  end.

(** *** [authorizeRole], [authorizePermission]

    What the two authorization middlewares answer when they do not call
    [next()]: 401 AUTH_REQUIRED, or 403 INSUFFICIENT_PERMISSIONS with what
    was required and what the user has. *)
Inductive denial : Type :=
  | AuthenticationRequired
  | InsufficientRole (requiredRoles : list string) (userRole : string)
  | InsufficientPermissions (requiredPermissions : list string)
                            (userPermissions : list jsval).

Definition denial_status (d : denial) : Z :=
  match d with
  | AuthenticationRequired => 401
  | InsufficientRole _ _ | InsufficientPermissions _ _ => 403
  end.

(** [authorizeRole(roles)]; [None] is [next()]. *)
Definition authorizeRole (roles : list string) (req_user : option req_user)
  : option denial :=
  match req_user with
  | None => Some AuthenticationRequired
  | Some user =>
      if negb (includes roles (req_role user))
      then Some (InsufficientRole roles (req_role user))
      else None
  end.

(** [authorizePermission(permissions)]; [None] is [next()]. *)
Definition authorizePermission (permissions : list string)
    (req_user : option req_user) : option denial :=
  match req_user with
  | None => Some AuthenticationRequired
  | Some user =>
      let userPermissions := req_permissions user in
      let hasAllPermissions :=
        forallb (fun permission =>
                   includes_value userPermissions (JStr permission))
                permissions in
      if negb hasAllPermissions
      then Some (InsufficientPermissions permissions userPermissions)
      else None
  end.

(** A route mounted as [authenticateToken, authorize, ...]: the answer of
    the first middleware that does not call [next()], or the [req.user] the
    handler runs with. *)
Definition authenticate_then `{Env}
    (authorize : option req_user -> option denial)
    (users : list user) (now : Z) (bearer : token)
  : (response + denial) + req_user :=
  match authenticateToken users now bearer with
  | inl rejected => inl (inl rejected)
  | inr user =>
      match authorize (Some user) with
      | Some denied => inl (inr denied)
      | None => inr user
      end
  end.

(** ** backend/routes/secureRoutes.js *)

(** The limiters mounted on the two routes (lines 43 and 178). *)
Definition login_rateLimit := rateLimit 5 (15 * 60 * 1000).
Definition refresh_rateLimit := rateLimit 10 (15 * 60 * 1000).

Definition lockoutTime : Z := 15 * 60 * 1000.

Definition invalid_credentials : response :=
  reply 401 (Failure "Invalid credentials" "INVALID_CREDENTIALS").

Definition invalid_user_data : response :=
  reply 500 (Failure "Invalid user data" "INTERNAL_ERROR").

Definition account_suspended : response :=
  reply 403 (Failure "Account is suspended" "ACCOUNT_SUSPENDED").

Definition account_locked (timeSinceLastFailed : Z) : response :=
  reply 429
    (FailureRetry "Account temporarily locked due to too many failed attempts"
       "ACCOUNT_LOCKED" (ceil_div (lockoutTime - timeSinceLastFailed) 1000)).

Definition invalid_refresh_token : response :=
  reply 401 (Failure "Invalid refresh token" "INVALID_REFRESH_TOKEN").

(** The lockout block (lines 88-106): answer, or go on with the reset it
    may have issued. *)
Definition lockout_gate (user : user) (now : Z) : response + list effect :=
  if 5 <=? failed_login_attempts user then
    let timeSinceLastFailed := now - getTime (last_failed_login user) in
    if timeSinceLastFailed <? lockoutTime
    then inl (account_locked timeSinceLastFailed)
    else inr [Sql (ResetFailedAttempts (id user))]
  else inr [].

(** POST /auth/login, after its middleware. *)
Definition login `{Env} (users : list user) (now : Z)
    (email_ password_ : string) : response * list effect :=
  if String.eqb email_ EmptyString || String.eqb password_ EmptyString then
    (reply 400 (Failure "Email and password are required"
                        "MISSING_CREDENTIALS"), [])
  else
    match filter (fun u => email u = email_) users with
    | [] => (invalid_credentials, [])
    | user :: _ =>
        if (id user =? 0) || String.eqb (role user) EmptyString then
          (invalid_user_data, [])
        else if negb (is_active user) then (account_suspended, [])
        else
          match lockout_gate user now with
          | inl locked => (locked, [])
          | inr resets =>
              let checked :=
                resets ++ [BcryptCompare password_ (password user)] in
              if negb (comparePassword password_ (password user)) then
                (invalid_credentials,
                 checked ++ [Sql (RecordFailedLogin (id user) now)])
              else
                let succeeded :=
                  checked ++ [Sql (RecordSuccessfulLogin (id user) now)] in
                match generateToken (id user) (role user) now,
                      generateRefreshToken (id user) now with
                | Some accessToken, Some refreshToken =>
                    (reply 200
                       (LoginSuccessful "Login successful"
                          accessToken refreshToken
                          {| data_id := id user; data_email := email user;
                             data_full_name := full_name user;
                             data_role := role user;
                             data_permissions :=
                               parsePermissions (permissions user) |}),
                     succeeded
                       ++ [Sql (SetRefreshToken (id user) (Some refreshToken))])
                | _, _ =>
                    (reply 500 (Failure "Token generation failed"
                                        "TOKEN_GENERATION_ERROR"),
                     succeeded)
                end
          end
    end.

(** POST /auth/refresh, after its middleware.  Every exception ends in the
    handler's one [catch]. *)
Definition refresh `{Env} (users : list user) (now : Z) (refreshToken : token)
  : response * list effect :=
  if token_missing refreshToken then
    (reply 400 (Failure "Refresh token is required" "MISSING_REFRESH_TOKEN"),
     [])
  else
    match verifyRefreshToken refreshToken now with
    | None => (invalid_refresh_token, [])
    | Some decoded =>
        if userId decoded =? 0 then (invalid_refresh_token, [])
        else
          match filter (fun u => id u = userId decoded
                                 /\ refresh_token u = Some refreshToken)
                       users with
          | [] => (invalid_refresh_token, [])
          | user :: _ =>
              if (id user =? 0) || String.eqb (role user) EmptyString then
                (invalid_user_data, [])
              else
                match generateToken (id user) (role user) now,
                      generateRefreshToken (id user) now with
                | Some newAccessToken, Some newRefreshToken =>
                    (reply 200
                       (TokenRefreshed "Token refreshed successfully"
                          newAccessToken newRefreshToken),
                     [Sql (SetRefreshToken (id user) (Some newRefreshToken))])
                | _, _ => (invalid_refresh_token, [])
                end
          end
    end.

(** POST /auth/logout: [authenticateToken], then the handler. *)
Definition logout `{Env} (users : list user) (now : Z) (bearer : token)
  : response * list effect :=
  match authenticateToken users now bearer with
  | inl rejected => (rejected, [])
  | inr req_user =>
      (reply 200 (LogoutSuccessful "Logout successful"),
       [Sql (SetRefreshToken (req_id req_user) None)])
  end.

(** POST /auth/change-password: [authenticateToken], then the handler (the
    limiter is [rateLimit 5] like the one of /auth/login).  [hashPassword]
    is [bcrypt.hash] with a fresh salt; the handler is given the hash that
    call produces.  The handler writes the [password] column only. *)
Inductive password_change : Type :=
  | ChangeRejected (answer : response)
  | PasswordChanged.   (* 200, 'Password changed successfully' *)

Definition set_password (uid : Z) (hashed : string) (users : list user)
  : list user :=
  map (fun row =>
         if id row =? uid then
           {| id := id row; email := email row; full_name := full_name row;
              password := hashed; role := role row;
              permissions := permissions row; is_active := is_active row;
              failed_login_attempts := failed_login_attempts row;
              last_failed_login := last_failed_login row;
              last_login := last_login row;
              refresh_token := refresh_token row |}
         else row)
      users.

Definition change_password `{Env} (hashPassword : string -> string)
    (users : list user) (now : Z) (bearer : token)
    (currentPassword newPassword : string) : password_change * list user :=
  match authenticateToken users now bearer with
  | inl rejected => (ChangeRejected rejected, users)
  | inr req_user =>
      let userId := req_id req_user in
      if String.eqb currentPassword EmptyString
         || String.eqb newPassword EmptyString then
        (ChangeRejected
           (reply 400 (Failure "Current password and new password are required"
                               "MISSING_PASSWORDS")), users)
      else if (String.length newPassword <? 8)%nat then
        (ChangeRejected
           (reply 400 (Failure "New password must be at least 8 characters long"
                               "WEAK_PASSWORD")), users)
      else
        match filter (fun u => id u = userId) users with
        | [] =>
            (ChangeRejected (reply 404 (Failure "User not found"
                                                "USER_NOT_FOUND")), users)
        | user :: _ =>
            if negb (comparePassword currentPassword (password user)) then
              (ChangeRejected
                 (reply 401 (Failure "Current password is incorrect"
                                     "INVALID_CURRENT_PASSWORD")), users)
            else
              let hashedNewPassword := hashPassword newPassword in
              (PasswordChanged, set_password userId hashedNewPassword users)
        end
  end.

(** *** Sequences of requests *)

Inductive request : Type :=
  | Login (email_ password_ : string)
  | Refresh (refreshToken : token)
  | Logout (bearer : token).

Definition handle `{Env} (users : list user) (now : Z) (r : request)
  : response * list effect :=
  match r with
  | Login email_ password_ => login users now email_ password_
  | Refresh refreshToken => refresh users now refreshToken
  | Logout bearer => logout users now bearer
  end.

(** The table after a request. *)
Definition after `{Env} (users : list user) (now : Z) (r : request)
  : list user :=
  replay (snd (handle users now r)) users.

(** The table after a list of timed requests, in order. *)
Definition run `{Env} (users : list user) (requests : list (Z * request))
  : list user :=
  fold_left (fun table timed => after table (fst timed) (snd timed))
            requests users.

(** ** lib/server-security (the TypeScript module at the head of auth.js's
       source part)

    Strings are sequences of code units below 128 here (ASCII); the
    regular expressions of this module only name such characters. *)

(** [checkRateLimit]: the limiter as a predicate, on a store of its own. *)
Definition checkRateLimit (identifier : string) (maxRequests windowMs : Z)
    (now : Z) (rateLimitStore : gmap string rate_record)
  : gmap string rate_record * bool :=
  match rateLimitStore !! identifier with
  | None =>
      (<[identifier := {| count := 1; resetTime := now + windowMs |}]>
         rateLimitStore, true)
  | Some record =>
      if resetTime record <? now then
        (<[identifier := {| count := 1; resetTime := now + windowMs |}]>
           rateLimitStore, true)
      else
        let record' :=
          {| count := count record + 1; resetTime := resetTime record |} in
        (<[identifier := record']> rateLimitStore,
         negb (maxRequests <? count record'))
  end.

(** [validatePermissions] *)
Definition validatePermissions (userPermissions requiredPermissions : list string)
  : bool :=
  forallb (fun permission => includes userPermissions permission)
          requiredPermissions.

(** Character classes of the regular expressions. *)
Definition in_range (lo hi : nat) (c : ascii) : bool :=
  let n := nat_of_ascii c in ((lo <=? n) && (n <=? hi))%nat.

Definition is_lower (c : ascii) : bool := in_range 97 122 c.
Definition is_upper (c : ascii) : bool := in_range 65 90 c.
Definition is_digit (c : ascii) : bool := in_range 48 57 c.
Definition is_alnum (c : ascii) : bool := is_lower c || is_upper c || is_digit c.

(** [\w] *)
Definition is_word (c : ascii) : bool := is_alnum c || Ascii.eqb c "_"%char.

(** [/[class]/.test(s)] *)
Definition test_class (class : ascii -> bool) (s : string) : bool :=
  existsb class (list_ascii_of_string s).

Record strength : Type := {
  strong : bool;
  score : Z;
  feedback : list string
}.

(** One [if (...) score++ else feedback.push(...)] of
    [checkPasswordStrength]. *)
Definition criterion (passed : bool) (message : string)
    (acc : Z * list string) : Z * list string :=
  if passed then (fst acc + 1, snd acc) else (fst acc, snd acc ++ [message]).

Definition checkPasswordStrength (password_ : string) : strength :=
  let acc := (0, []) in
  let acc := criterion (8 <=? String.length password_)%nat
               "Password must be at least 8 characters long" acc in
  let acc := criterion (test_class is_lower password_)
               "Password must contain at least one lowercase letter" acc in
  let acc := criterion (test_class is_upper password_)
               "Password must contain at least one uppercase letter" acc in
  let acc := criterion (test_class is_digit password_)
               "Password must contain at least one number" acc in
  let acc := criterion (test_class (fun c => negb (is_alnum c)) password_)
               "Password must contain at least one special character" acc in
  {| strong := 4 <=? fst acc; score := fst acc; feedback := snd acc |}.

(** [sanitizeInput]: three global replacements by the empty string, then
    [trim()]. *)

(** [.replace(/[<>]/g, '')] *)
Fixpoint remove_angles (s : string) : string :=
  match s with
  | EmptyString => EmptyString
  | String c rest =>
      if Ascii.eqb c "<"%char || Ascii.eqb c ">"%char then remove_angles rest
      else String c (remove_angles rest)
  end.

(** Lower case of a code unit, for the [i] flag. *)
Definition to_lower (c : ascii) : ascii :=
  if is_upper c then ascii_of_nat (nat_of_ascii c + 32) else c.

(** [s] starts with [word], case ignored. *)
Fixpoint starts_with_ci (word s : string) : bool :=
  match word, s with
  | EmptyString, _ => true
  | String w word', String c rest =>
      Ascii.eqb (to_lower c) w && starts_with_ci word' rest
  | String _ _, EmptyString => false
  end.

(** A global replacement by the empty string, scanning left to right:
    where [match_at] finds a match of [n] code units they are skipped and
    the scan goes on behind them; elsewhere one code unit is kept. *)
Fixpoint remove_matches (match_at : string -> option nat) (skip : nat)
    (s : string) : string :=
  match s with
  | EmptyString => EmptyString
  | String c rest =>
      match skip with
      | S skip' => remove_matches match_at skip' rest
      | O =>
          match match_at s with
          | Some (S n) => remove_matches match_at n rest
          | _ => String c (remove_matches match_at O rest)
          end
      end
  end.

(** [/javascript:/gi] at the head of [s]. *)
Definition match_javascript (s : string) : option nat :=
  if starts_with_ci "javascript:" s then Some 11%nat else None.

(** The greedy [\w+] followed by [=]: the number of word characters, when
    there is one at least and [=] comes right after the last. *)
Fixpoint word_run_then_equals (s : string) : option nat :=
  match s with
  | EmptyString => None
  | String c rest =>
      if is_word c then
        match rest with
        | String d _ =>
            if Ascii.eqb d "="%char then Some 1%nat
            else option_map S (word_run_then_equals rest)
        | EmptyString => None
        end
      else None
  end.

(** [/on\w+=/gi] at the head of [s]. *)
Definition match_handler (s : string) : option nat :=
  match s with
  | String o (String n rest) =>
      if Ascii.eqb (to_lower o) "o"%char && Ascii.eqb (to_lower n) "n"%char
      then option_map (fun run => (2 + run + 1)%nat) (word_run_then_equals rest)
      else None
  | _ => None
  end.

Definition sanitizeInput (input : string) : string :=
  trim (remove_matches match_handler O
          (remove_matches match_javascript O (remove_angles input))).

(** [s] contains [word] as a substring. *)
Fixpoint contains (word s : string) : bool :=
  String.prefix word s
  || match s with
     | EmptyString => false
     | String _ rest => contains word rest
     end.

(** ** A concrete platform and concrete tables

    Used to run the handlers: the defaults of auth.js (['24h'], ['7d'] in
    seconds), a transparent stand-in for bcrypt (the hash of [p] is
    ["bcrypt:" ++ p]) and a [JSON.parse] that knows the three JSON literals
    and rejects every other text. *)

Definition sample_compare (password hash : string) : bool :=
  String.eqb hash (String.append "bcrypt:" password).

(** The hash [sample_compare] accepts. *)
Definition sample_hash (password : string) : string :=
  String.append "bcrypt:" password.

Definition sample_parse (s : string) : option jsval :=
  if String.eqb s "null" then Some JNull
  else if String.eqb s "true" then Some (JBool true)
  else if String.eqb s "false" then Some (JBool false)
  else None.

Definition sample_env : Env :=
  {| JWT_SECRET := "your-secret-key-change-in-production";
     JWT_EXPIRES_IN := 24 * 60 * 60;
     REFRESH_TOKEN_EXPIRES_IN := 7 * 24 * 60 * 60;
     bcrypt_compare := sample_compare;
     JSON_parse := sample_parse |}.

(** An account, by id, state of the lockout columns, activity and stored
    overrides; its password is ["secret"]. *)
Definition account (uid : Z) (mail : string) (active : bool) (failed : Z)
    (last_failed : option Z) (overrides : jsval) (pointer : option token)
  : user :=
  {| id := uid; email := mail; full_name := "Test User";
     password := "bcrypt:secret"; role := "user"; permissions := overrides;
     is_active := active; failed_login_attempts := failed;
     last_failed_login := last_failed; last_login := None;
     refresh_token := pointer |}.

Definition ada_email : string := "ada@example.com".

Definition ada (failed : Z) (last_failed : option Z) : user :=
  account 1 ada_email true failed last_failed (JArr []) None.

(** The refresh token [generateRefreshToken] makes for account 1 during
    second [issued]. *)
Definition refresh_token_of (issued : Z) : token :=
  jwt_sign 1 None (Some "refresh") issued
    "your-secret-key-change-in-production" (7 * 24 * 60 * 60).

Definition access_token_of (issued : Z) : token :=
  jwt_sign 1 (Some "user") None issued
    "your-secret-key-change-in-production" (24 * 60 * 60).

(** The store after a request has gone through a limiter. *)
Definition counted
    (limiter : string -> Z -> gmap string rate_record
               -> gmap string rate_record * option response)
    (key : string) (store : gmap string rate_record) (now : Z)
  : gmap string rate_record :=
  fst (limiter key now store).

Definition client : string := "203.0.113.7".

(** A table with one account whose pointer is the refresh token issued
    during second 1000000. *)
Definition ada_signed_in : list user :=
  [account 1 ada_email true 0 None (JArr [])
     (Some (refresh_token_of 1000000))].

(** An access token of account 1 whose role claim says [super_admin]. *)
Definition admin_token_of (issued : Z) : token :=
  jwt_sign 1 (Some "super_admin") None issued
    "your-secret-key-change-in-production" (24 * 60 * 60).

(** The store after five requests of [client], one a second from 0, to a
    limiter of five requests a minute. *)
Definition five_requests : gmap string rate_record :=
  fold_left (counted (rateLimit 5 60000) client) [0; 1000; 2000; 3000; 4000] ∅.

(** ** Vocabulary of the properties *)


(** The rows of one account ([id] is the primary key, so there is one),
    their lockout counters and their stored refresh-token pointers. *)
Definition rows (uid : Z) (users : list user) : list user :=
  filter (fun u => id u = uid) users.

Definition counters (uid : Z) (users : list user) : list Z :=
  map failed_login_attempts (rows uid users).

Definition pointers (uid : Z) (users : list user) : list (option token) :=
  map refresh_token (rows uid users).

(** The request has both fields, and the row an id and a role: what the
    first gates of [login] check before any decision about the account. *)
Definition well_formed (email_ password_ : string) (u : user) : Prop :=
  email_ <> EmptyString /\ password_ <> EmptyString
  /\ id u <> 0 /\ role u <> EmptyString.

(** The account is not inside a lockout at [now]. *)
Definition unlocked (u : user) (now : Z) : Prop :=
  failed_login_attempts u < 5
  \/ lockoutTime <= now - getTime (last_failed_login u).

(** A log executes a statement that writes 0 to the counter of [uid]. *)
Definition writes_zero (uid : Z) (e : effect) : bool :=
  match e with
  | Sql (ResetFailedAttempts target)
  | Sql (RecordSuccessfulLogin target _) => target =? uid
  | _ => false
  end.

Definition sets_counter_to_zero (uid : Z) (log : list effect) : Prop :=
  existsb (writes_zero uid) log = true.

(** A log performs a credential-hash comparison. *)
Definition compares_hash (log : list effect) : Prop :=
  exists password hash, In (BcryptCompare password hash) log.

(** A failed attempt: a timed, non-empty secret that is not the account's. *)
Definition wrong_secret `{Env} (u : user) (attempt : Z * string) : Prop :=
  snd attempt <> EmptyString
  /\ comparePassword (snd attempt) (password u) = false.

Definition login_attempts (email_ : string) (attempts : list (Z * string))
  : list (Z * request) :=
  map (fun attempt => (fst attempt, Login email_ (snd attempt))) attempts.


(** No row of account [uid] holds [T] as its refresh-token pointer. *)
Definition superseded (T : token) (uid : Z) (users : list user) : Prop :=
  forall row, In row users -> id row = uid -> refresh_token row <> Some T.


(** The [req.user] that [authenticateToken] builds from a row. *)
Definition req_user_of `{Env} (user : user) : req_user :=
  {| req_id := id user; req_email := email user;
     req_full_name := full_name user; req_role := role user;
     req_permissions := parsePermissions (permissions user);
     req_last_login := last_login user |}.

(** The columns no authentication route writes. *)
Definition same_account (a b : user) : Prop :=
  id a = id b /\ email a = email b /\ full_name a = full_name b
  /\ role a = role b /\ permissions a = permissions b
  /\ is_active a = is_active b.

(** Two rows that differ in the [password] column at most. *)
Definition same_but_password (a b : user) : Prop :=
  id a = id b /\ email a = email b /\ full_name a = full_name b
  /\ role a = role b /\ permissions a = permissions b
  /\ is_active a = is_active b
  /\ failed_login_attempts a = failed_login_attempts b
  /\ last_failed_login a = last_failed_login b
  /\ last_login a = last_login b /\ refresh_token a = refresh_token b.

(** *** The specification's wording, where it differs from the code *)

(** Specification, section 4.5: a refresh with a superseded token fails with
    an answer of its own, different from the one an expired token gets. *)
Definition spec_reuse_is_distinguished `{Env} (users : list user)
    (t1 t2 : Z) (T expired : token) : Prop :=
  status (fst (refresh users t1 T)) = 200 ->
  jwt_verify expired JWT_SECRET t2 = inl TokenExpiredError ->
  let users' := after users t1 (Refresh T) in
  status (fst (refresh users' t2 T)) <> 200
  /\ fst (refresh users' t2 T) <> fst (refresh users' t2 expired).

(** Specification, section 4.5: the permission set of the account can be
    read off the claims of its access token. *)
Definition spec_token_embeds_permissions `{Env}
    (read : token -> list jsval) : Prop :=
  forall users now email_ password_ u rest
         message accessToken refreshToken data,
    filter (fun u => email u = email_) users = u :: rest ->
    fst (login users now email_ password_)
    = reply 200 (LoginSuccessful message accessToken refreshToken data) ->
    forall resolved,
      getUserPermissions (role u) (permissions u) = Return (Array resolved) ->
      forall v, In v (read accessToken) <-> In v resolved.

(** Specification, section 3: the counter is reset exactly when the login
    succeeds or [now - lastFailureTime >= lockoutDuration]. *)
Definition spec_reset_rule `{Env} (users : list user) (now : Z)
    (email_ password_ : string) : Prop :=
  forall u rest,
    filter (fun u => email u = email_) users = u :: rest ->
    (status (fst (login users now email_ password_)) = 200
     \/ lockoutTime <= now - getTime (last_failed_login u))
    <-> sets_counter_to_zero (id u) (snd (login users now email_ password_)).

(** Specification, section 4.4: a login for an unknown identifier still
    performs a hash comparison. *)
Definition spec_dummy_comparison `{Env} (users : list user) (now : Z)
    (email_ password_ : string) : Prop :=
  email_ <> EmptyString -> password_ <> EmptyString ->
  filter (fun u => email u = email_) users = [] ->
  compares_hash (snd (login users now email_ password_)).



(** * Properties *)

(** ** Permission resolution *)

Section Permissions.
Context `{Env}.

Lemma same_value_zero_eq a b : same_value_zero a b = true -> a = b.
Proof.
  destruct a, b; simpl; try discriminate; intros E; try reflexivity.
  - apply Bool.eqb_prop in E. congruence.
  - apply Z.eqb_eq in E. congruence.
  - apply String.eqb_eq in E. congruence.
Qed.

Lemma set_add_In acc x v : In v (set_add acc x) <-> In v acc \/ v = x.
Proof.
  unfold set_add. destruct (existsb (same_value_zero x) acc) eqn:E.
  - split; [tauto |]. intros [Hin | ->]; [assumption |].
    apply existsb_exists in E as (y & Hy & Hxy).
    apply same_value_zero_eq in Hxy. subst. assumption.
  - rewrite in_app_iff. simpl. intuition congruence.
Qed.

Lemma fold_set_add_In l acc v :
  In v (fold_left set_add l acc) <-> In v acc \/ In v l.
Proof.
  revert acc. induction l as [| x l IH]; intros acc; simpl.
  - tauto.
  - rewrite IH, set_add_In. intuition congruence.
Qed.

Lemma array_from_set_In l v : In v (array_from_set l) <-> In v l.
Proof. unfold array_from_set. rewrite fold_set_add_In. simpl. tauto. Qed.






Lemma includes_In array x : includes array x = true <-> In x array.
Proof.
  unfold includes. rewrite existsb_exists. split.
  - intros (y & Hin & E). apply String.eqb_eq in E. subst. assumption.
  - intros Hin. exists x. split; [assumption | apply String.eqb_refl].
Qed.

Lemma includes_not_In array x : includes array x = false <-> ~ In x array.
Proof.
  rewrite <- includes_In. destruct (includes array x); intuition congruence.
Qed.

(** No key of the role table is the name of a member of
    [Object.prototype]. *)
Lemma ROLE_PERMISSIONS_own role :
  In role Object_prototype -> property ROLE_PERMISSIONS role = None.
Proof.
  intros Hin. simpl in Hin.
  repeat destruct Hin as [<- | Hin]; try reflexivity. destruct Hin.
Qed.

(** For the name of such a member, [getPermissionsForRole] returns the
    member. *)
Lemma getPermissionsForRole_prototype role :
  In role Object_prototype -> getPermissionsForRole role = Member role.
Proof.
  intros Hin. unfold getPermissionsForRole, js_get.
  rewrite (ROLE_PERMISSIONS_own _ Hin).
  apply includes_In in Hin. rewrite Hin. reflexivity.
Qed.

(** For every other role it returns a row of the table, the row of [user]
    for a role the table does not list; every row is free of duplicates. *)
Lemma getPermissionsForRole_array role :
  ~ In role Object_prototype ->
  exists rolePermissions,
    getPermissionsForRole role = Array rolePermissions
    /\ NoDup rolePermissions
    /\ (forall permission,
           In permission (default [] (property ROLE_PERMISSIONS "user")) ->
           In permission rolePermissions).
Proof.
  intros Hout. apply includes_not_In in Hout.
  unfold getPermissionsForRole, js_get. rewrite Hout.
  unfold ROLE_PERMISSIONS, property.
  repeat match goal with
         | |- context [String.eqb ?a role] => destruct (String.eqb a role)
         end;
    eexists; (split; [reflexivity |]);
    (split; [apply (bool_decide_unpack _); vm_compute; exact I |]);
    intros permission Hin; simpl in Hin |- *; tauto.
Qed.

Lemma parsePermissions_falsy v : truthy v = false -> parsePermissions v = [].
Proof.
  intros F. unfold parsePermissions.
  destruct (nesting_bound v); simpl; rewrite F; reflexivity.
Qed.

(** The recursion of the source: on a string, [parsePermissions] is
    [parsePermissions] of what [JSON.parse] returns.  The depth given by
    [nesting_bound] is enough because decoding a JSON string literal
    drops at least its two quotes. *)
Section Recursion.
Hypothesis JSON_parse_shorter : forall s s',
  JSON_parse s = Some (JStr s') ->
  (String.length s' < String.length s)%nat.


End Recursion.











(** The permissions of the role [user]. *)
Lemma getPermissionsForRole_user :
  getPermissionsForRole "user"
  = Array [ "courses:view"; "courses:take"; "profile:edit";
            "certificates:view"; "achievements:view"; "progress:view" ].
Proof. reflexivity. Qed.

End Permissions.

(** ** The login handler *)

Section LoginHandler.
Context `{Env}.

Lemma ceil_div_pos x : 0 < x -> 0 < ceil_div x 1000.
Proof.
  intros Hx. unfold ceil_div.
  assert ((- x) / 1000 < 0); [| lia].
  apply Z.div_lt_upper_bound; lia.
Qed.

(** [login] once the request and the row have passed the first gates. *)
Lemma login_found users now email_ password_ u rest :
  well_formed email_ password_ u ->
  filter (fun u => email u = email_) users = u :: rest ->
  login users now email_ password_ =
  if negb (is_active u) then (account_suspended, [])
  else
    match lockout_gate u now with
    | inl locked => (locked, [])
    | inr resets =>
        let checked := resets ++ [BcryptCompare password_ (password u)] in
        if negb (comparePassword password_ (password u)) then
          (invalid_credentials, checked ++ [Sql (RecordFailedLogin (id u) now)])
        else
          let succeeded :=
            checked ++ [Sql (RecordSuccessfulLogin (id u) now)] in
          match generateToken (id u) (role u) now,
                generateRefreshToken (id u) now with
          | Some accessToken, Some refreshToken =>
              (reply 200
                 (LoginSuccessful "Login successful" accessToken refreshToken
                    {| data_id := id u; data_email := email u;
                       data_full_name := full_name u; data_role := role u;
                       data_permissions := parsePermissions (permissions u) |}),
               succeeded ++ [Sql (SetRefreshToken (id u) (Some refreshToken))])
          | _, _ =>
              (reply 500 (Failure "Token generation failed"
                                  "TOKEN_GENERATION_ERROR"),
               succeeded)
          end
    end.
Proof.
  intros (He & Hp & Hid & Hrole) Hsel. unfold login.
  apply String.eqb_neq in He, Hp, Hrole. apply Z.eqb_neq in Hid.
  rewrite He, Hp, Hsel, Hid, Hrole. reflexivity.
Qed.

Lemma login_unknown users now email_ password_ :
  email_ <> EmptyString -> password_ <> EmptyString ->
  filter (fun u => email u = email_) users = [] ->
  login users now email_ password_ = (invalid_credentials, []).
Proof.
  intros He Hp Hsel. unfold login.
  apply String.eqb_neq in He, Hp. rewrite He, Hp, Hsel. reflexivity.
Qed.

Lemma lockout_gate_unlocked u now :
  unlocked u now ->
  lockout_gate u now =
  inr (if 5 <=? failed_login_attempts u
       then [Sql (ResetFailedAttempts (id u))] else []).
Proof.
  unfold unlocked, lockout_gate. intros U.
  destruct (5 <=? failed_login_attempts u) eqn:E; [| reflexivity].
  apply Z.leb_le in E.
  destruct (now - getTime (last_failed_login u) <? lockoutTime) eqn:L;
    [| reflexivity].
  apply Z.ltb_lt in L. lia.
Qed.

Lemma lockout_gate_locked u now :
  5 <= failed_login_attempts u ->
  now - getTime (last_failed_login u) < lockoutTime ->
  lockout_gate u now
  = inl (account_locked (now - getTime (last_failed_login u))).
Proof.
  intros C L. unfold lockout_gate.
  apply Z.leb_le in C. apply Z.ltb_lt in L. rewrite C, L. reflexivity.
Qed.

(** C7.  A well-formed login for an identifier that matches no account
    and a login for an existing account that reaches the credential check
    with a wrong secret get the same response: status 401, message
    "Invalid credentials", code INVALID_CREDENTIALS. *)
Theorem invalid_credentials_identical
    users users' now now' unknown known secret secret' u rest :
  unknown <> EmptyString -> secret <> EmptyString ->
  filter (fun u => email u = unknown) users = [] ->
  well_formed known secret' u ->
  filter (fun u => email u = known) users' = u :: rest ->
  is_active u = true ->
  unlocked u now' ->
  comparePassword secret' (password u) = false ->
  fst (login users now unknown secret) = fst (login users' now' known secret')
  /\ fst (login users now unknown secret)
     = reply 401 (Failure "Invalid credentials" "INVALID_CREDENTIALS").
Proof.
  intros He Hs Hnone Hwf Hsel Hact Hun Hwrong.
  rewrite (login_unknown _ _ _ _ He Hs Hnone).
  rewrite (login_found _ _ _ _ _ _ Hwf Hsel), Hact.
  rewrite (lockout_gate_unlocked _ _ Hun). simpl. rewrite Hwrong.
  split; reflexivity.
Qed.

(** C10.  A well-formed login naming an account whose [is_active] flag is
    false is answered 403 ACCOUNT_SUSPENDED whatever its counter, its last
    failure time and the presented secret are; the handler performs no
    effect, so the table, and in it the counter and the refresh-token
    pointer, is unchanged. *)
Theorem inactive_account_suspended users now email_ password_ u rest :
  well_formed email_ password_ u ->
  filter (fun u => email u = email_) users = u :: rest ->
  is_active u = false ->
  login users now email_ password_
  = (reply 403 (Failure "Account is suspended" "ACCOUNT_SUSPENDED"), [])
  /\ after users now (Login email_ password_) = users.
Proof.
  intros Hwf Hsel Hact.
  assert (login users now email_ password_ = (account_suspended, [])) as E.
  { rewrite (login_found _ _ _ _ _ _ Hwf Hsel), Hact. reflexivity. }
  split; [exact E |].
  unfold after. simpl. rewrite E. reflexivity.
Qed.

(** C8, as the code has it.  A well-formed login for an identifier that
    matches no account is answered INVALID_CREDENTIALS without any hash
    comparison; whenever [login] does compare, it is the presented secret
    against the stored hash of the account found. *)
Theorem unknown_identifier_skips_comparison users now email_ password_ :
  (email_ <> EmptyString -> password_ <> EmptyString ->
   filter (fun u => email u = email_) users = [] ->
   login users now email_ password_ = (invalid_credentials, [])
   /\ ~ compares_hash (snd (login users now email_ password_)))
  /\ (forall p h,
        In (BcryptCompare p h) (snd (login users now email_ password_)) ->
        exists u rest,
          filter (fun u => email u = email_) users = u :: rest
          /\ p = password_ /\ h = password u).
Proof.
  split.
  - intros He Hp Hnone. rewrite (login_unknown _ _ _ _ He Hp Hnone).
    split; [reflexivity |]. intros (p & h & []).
  - intros p h. unfold login.
    destruct (_ || _); [intros [] |].
    destruct (filter _ users) as [| u rest]; [intros [] |].
    destruct (_ || _); [intros [] |].
    destruct (negb (is_active u)); [intros [] |].
    unfold lockout_gate.
    intros Hin. exists u, rest. split; [reflexivity |].
    repeat match type of Hin with
           | context [if ?c then _ else _] => destruct c
           | context [match ?c with _ => _ end] => destruct c
           end;
      simpl in Hin; intuition (try discriminate);
      match goal with E : BcryptCompare _ _ = BcryptCompare _ _ |- _ =>
        injection E; intros; subst; auto end.
Qed.
End LoginHandler.

(** ** Updates and the rows of an account *)

Section Tables.
Context `{Env}.

Lemma update_row_id upd row : id (update_row upd row) = id row.
Proof. destruct upd; reflexivity. Qed.

Lemma update_row_email upd row : email (update_row upd row) = email row.
Proof. destruct upd; reflexivity. Qed.

Lemma update_row_is_active upd row :
  is_active (update_row upd row) = is_active row.
Proof. destruct upd; reflexivity. Qed.

(** An UPDATE commutes with a SELECT on columns it does not write. *)
Lemma filter_exec_update (P : user -> Prop) `{!forall u, Decision (P u)}
    upd users :
  (forall row, P (update_row upd row) <-> P row) ->
  filter P (exec_update upd users) = exec_update upd (filter P users).
Proof.
  intros HP. unfold exec_update.
  induction users as [| row users IH]; [reflexivity |].
  simpl. rewrite !filter_cons.
  destruct (id row =? update_target upd) eqn:E.
  - destruct (decide (P (update_row upd row))) as [Y | N],
             (decide (P row)) as [Y' | N']; rewrite ?HP in *;
      try contradiction; simpl; rewrite ?E, IH; reflexivity.
  - destruct (decide (P row)); simpl; rewrite ?E, IH; reflexivity.
Qed.

Lemma rows_exec_update uid upd users :
  rows uid (exec_update upd users) =
  if update_target upd =? uid then map (update_row upd) (rows uid users)
  else rows uid users.
Proof.
  unfold rows. rewrite filter_exec_update
    by (intros row; rewrite update_row_id; reflexivity).
  unfold exec_update.
  destruct (update_target upd =? uid) eqn:E.
  - apply Z.eqb_eq in E. apply map_ext_in. intros row Hin.
    apply list_elem_of_In, list_elem_of_filter in Hin as [Hid _].
    rewrite Hid, E, Z.eqb_refl. reflexivity.
  - apply Z.eqb_neq in E. rewrite <- (map_id (filter _ users)) at 2.
    apply map_ext_in. intros row Hin.
    apply list_elem_of_In, list_elem_of_filter in Hin as [Hid _].
    destruct (id row =? update_target upd) eqn:E'; [| reflexivity].
    apply Z.eqb_eq in E'. congruence.
Qed.

Lemma select_email_exec_update email_ upd users :
  filter (fun u => email u = email_) (exec_update upd users)
  = exec_update upd (filter (fun u => email u = email_) users).
Proof.
  apply filter_exec_update. intros row. rewrite update_row_email. reflexivity.
Qed.

Lemma select_active_exec_update uid upd users :
  filter (fun u => id u = uid /\ is_active u = true) (exec_update upd users)
  = exec_update upd
      (filter (fun u => id u = uid /\ is_active u = true) users).
Proof.
  apply filter_exec_update. intros row.
  rewrite update_row_id, update_row_is_active. reflexivity.
Qed.

Lemma replay_app log1 log2 users :
  replay (log1 ++ log2) users = replay log2 (replay log1 users).
Proof. unfold replay. apply fold_left_app. Qed.

(** No authentication route inserts or deletes a row. *)
Lemma rows_length_exec_update uid upd users :
  length (rows uid (exec_update upd users)) = length (rows uid users).
Proof.
  rewrite rows_exec_update.
  destruct (update_target upd =? uid); [apply length_map | reflexivity].
Qed.

Lemma rows_length_replay uid log : forall users,
  length (rows uid (replay log users)) = length (rows uid users).
Proof.
  induction log as [| [upd | p h] log IH]; intros users; simpl;
    [reflexivity | | apply IH].
  unfold replay in IH. rewrite IH. apply rows_length_exec_update.
Qed.

Lemma map_const_repeat {A B} (c : B) (l : list A) :
  map (fun _ => c) l = repeat c (length l).
Proof. induction l; simpl; congruence. Qed.

(** After [UPDATE users SET refresh_token = value WHERE id = uid], every
    row of the account holds [value]. *)
Lemma pointers_exec_set uid value users :
  pointers uid (exec_update (SetRefreshToken uid value) users)
  = repeat value (length (rows uid users)).
Proof.
  unfold pointers. rewrite rows_exec_update. simpl update_target.
  rewrite Z.eqb_refl, map_map. simpl. apply map_const_repeat.
Qed.

Lemma selected_row (P : user -> Prop) `{!forall u, Decision (P u)}
    users u rest :
  filter P users = u :: rest -> In u users /\ P u.
Proof.
  intros E. assert (u ∈ filter P users) as Hin by (rewrite E; left).
  apply list_elem_of_filter in Hin as [HP Hin].
  split; [apply list_elem_of_In, Hin | exact HP].
Qed.

Lemma rows_In uid users row :
  In row (rows uid users) <-> In row users /\ id row = uid.
Proof.
  unfold rows. rewrite <- !list_elem_of_In, list_elem_of_filter. tauto.
Qed.
End Tables.

(** ** The lockout counter *)

Section Lockout.
Context `{Env}.

(** C5, as the code has it.  For a well-formed login naming an account:
    the counter is left as it is when the attempt is rejected at an
    earlier gate (inactive account, or counter at 5 or more with the last
    failure less than [lockoutTime] ago); otherwise it becomes 0 when the
    presented secret is right, and when it is wrong it becomes 1 if the
    counter had reached 5 (the expired lockout is reset first) and is
    incremented by one if it had not.  A statement writing 0 is executed
    exactly when the attempt passes the gates and either the secret is
    right or the counter had reached 5. *)
Theorem failed_attempts_rule users now email_ password_ u rest :
  well_formed email_ password_ u ->
  filter (fun u => email u = email_) users = u :: rest ->
  counters (id u) (after users now (Login email_ password_)) =
    (if negb (is_active u)
        || ((5 <=? failed_login_attempts u)
            && (now - getTime (last_failed_login u) <? lockoutTime))
     then counters (id u) users
     else if comparePassword password_ (password u)
     then map (fun _ => 0) (counters (id u) users)
     else if 5 <=? failed_login_attempts u
     then map (fun _ => 1) (counters (id u) users)
     else map (fun c => c + 1) (counters (id u) users))
  /\ (sets_counter_to_zero (id u) (snd (login users now email_ password_))
      <-> is_active u = true /\ unlocked u now
          /\ (comparePassword password_ (password u) = true
              \/ 5 <= failed_login_attempts u)).
Proof.
  intros Hwf Hsel. unfold after, handle, sets_counter_to_zero, unlocked.
  rewrite (login_found _ _ _ _ _ _ Hwf Hsel). unfold lockout_gate.
  destruct (is_active u); simpl negb; cbv iota.
  2: { simpl. split; [reflexivity |].
       split; [discriminate | intros [? _]; discriminate]. }
  destruct (5 <=? failed_login_attempts u) eqn:C;
    [apply Z.leb_le in C | apply Z.leb_gt in C];
    (destruct (now - getTime (last_failed_login u) <? lockoutTime) eqn:L;
     [apply Z.ltb_lt in L | apply Z.ltb_ge in L]);
    simpl orb; simpl andb; cbv iota;
    try (simpl; split; [reflexivity |];
         split; [discriminate | intros (_ & [? | ?] & _); lia]);
    (destruct (comparePassword password_ (password u)) eqn:P;
     simpl negb; cbv iota;
     [destruct (generateToken (id u) (role u) now),
               (generateRefreshToken (id u) now) |]);
    (split;
     [ unfold counters; simpl;
       rewrite ?rows_exec_update; simpl update_target;
       rewrite ?Z.eqb_refl, ?map_map; apply map_ext; intros; reflexivity
     | simpl; rewrite ?Z.eqb_refl; simpl; split;
       [ intros E; repeat split; auto; try lia;
         try (left; reflexivity); try (right; lia); try discriminate E
       | intros (_ & _ & [E | E]);
         try reflexivity; try discriminate E; try lia ]]).
Qed.
End Lockout.

(** ** Lockout after repeated failures *)

Section LockoutTrace.
Context `{Env}.

Lemma run_cons users timed requests :
  run users (timed :: requests)
  = run (after users (fst timed) (snd timed)) requests.
Proof. reflexivity. Qed.

(** A wrong secret below the threshold: one UPDATE, the increment. *)
Lemma login_wrong_after users now email_ password_ u rest :
  well_formed email_ password_ u ->
  filter (fun u => email u = email_) users = u :: rest ->
  is_active u = true ->
  failed_login_attempts u < 5 ->
  comparePassword password_ (password u) = false ->
  after users now (Login email_ password_)
  = exec_update (RecordFailedLogin (id u) now) users.
Proof.
  intros Hwf Hsel Hact Hc Hwrong. unfold after, handle.
  rewrite (login_found _ _ _ _ _ _ Hwf Hsel), Hact.
  rewrite lockout_gate_unlocked by (left; assumption).
  apply Z.leb_gt in Hc. rewrite Hc. simpl. rewrite Hwrong. reflexivity.
Qed.

(** Failed attempts add up as long as the threshold is not passed, and
    the last one stamps [last_failed_login]. *)
Lemma wrong_attempts_accumulate email_ attempts : forall users u rest,
  email_ <> EmptyString -> id u <> 0 -> role u <> EmptyString ->
  is_active u = true ->
  filter (fun u => email u = email_) users = u :: rest ->
  failed_login_attempts u + Z.of_nat (length attempts) <= 5 ->
  Forall (wrong_secret u) attempts ->
  exists u' rest',
    filter (fun u => email u = email_)
           (run users (login_attempts email_ attempts)) = u' :: rest'
    /\ id u' = id u /\ role u' = role u /\ is_active u' = true
    /\ password u' = password u
    /\ failed_login_attempts u'
       = failed_login_attempts u + Z.of_nat (length attempts)
    /\ (forall earlier t p, attempts = earlier ++ [(t, p)] ->
                            last_failed_login u' = Some (sql_now t)).
Proof.
  induction attempts as [| [t p] attempts IH];
    intros users u rest He Hid Hrole Hact Hsel Hbound Hwrong.
  - exists u, rest. simpl. repeat split; auto; try lia.
    intros [| ? ?] ? ? E; discriminate E.
  - apply Forall_cons in Hwrong as [[Hp Hw] Hwrong]. simpl in Hp, Hw.
    simpl length in Hbound.
    simpl login_attempts. rewrite run_cons. simpl fst. simpl snd.
    rewrite (login_wrong_after users t email_ p u rest)
      by (unfold well_formed; auto; lia).
    set (upd := RecordFailedLogin (id u) t).
    assert (filter (fun u => email u = email_) (exec_update upd users)
            = update_row upd u :: exec_update upd rest) as Hsel'.
    { rewrite select_email_exec_update, Hsel. unfold exec_update at 1.
      simpl. rewrite Z.eqb_refl. reflexivity. }
    destruct (IH (exec_update upd users) (update_row upd u)
                (exec_update upd rest) He Hid Hrole Hact Hsel')
      as (u' & rest' & S1 & S2 & S3 & S4 & S5 & S6 & S7).
    { simpl. lia. }
    { exact Hwrong. }
    exists u', rest'. repeat split; auto.
    + rewrite S6. simpl. lia.
    + intros earlier t' p' E. destruct earlier as [| a earlier].
      * simpl in E. injection E as -> -> ->. simpl in S1.
        rewrite Hsel' in S1. injection S1 as <- <-. reflexivity.
      * simpl in E. injection E as <- E. eapply S7. exact E.
Qed.

(** Inside a lockout the handler answers before it looks at the secret. *)
Lemma login_locked users now email_ password_ u rest :
  well_formed email_ password_ u ->
  filter (fun u => email u = email_) users = u :: rest ->
  is_active u = true ->
  5 <= failed_login_attempts u ->
  now - getTime (last_failed_login u) < lockoutTime ->
  login users now email_ password_
  = (account_locked (now - getTime (last_failed_login u)), []).
Proof.
  intros Hwf Hsel Hact Hc Hl.
  rewrite (login_found _ _ _ _ _ _ Hwf Hsel), Hact.
  rewrite lockout_gate_locked by assumption. reflexivity.
Qed.

(** C2.  An active account whose counter is 0 fails five logins with a
    wrong secret; the next login, made less than [lockoutTime] after the
    (stored) time of the fifth failure, is answered 429 ACCOUNT_LOCKED with
    a positive [retryAfter] and no effect, whatever secret it presents:
    the lockout gate returns before [comparePassword] is reached. *)
Theorem lockout_precedes_credential_check
    users email_ u rest earlier t5 p5 now password_ :
  well_formed email_ password_ u ->
  filter (fun u => email u = email_) users = u :: rest ->
  is_active u = true ->
  failed_login_attempts u = 0 ->
  length earlier = 4%nat ->
  Forall (wrong_secret u) (earlier ++ [(t5, p5)]) ->
  now - sql_now t5 < lockoutTime ->
  exists retryAfter,
    0 < retryAfter
    /\ login (run users (login_attempts email_ (earlier ++ [(t5, p5)])))
             now email_ password_
       = (reply 429
            (FailureRetry
               "Account temporarily locked due to too many failed attempts"
               "ACCOUNT_LOCKED" retryAfter), []).
Proof.
  intros (He & Hp & Hid & Hrole) Hsel Hact Hzero Hlen Hwrong Hwindow.
  destruct (wrong_attempts_accumulate email_ (earlier ++ [(t5, p5)])
              users u rest He Hid Hrole Hact Hsel)
    as (u' & rest' & S1 & S2 & S3 & S4 & S5 & S6 & S7).
  { rewrite length_app, Hlen, Hzero. simpl. lia. }
  { exact Hwrong. }
  specialize (S7 earlier t5 p5 eq_refl).
  rewrite length_app, Hlen, Hzero in S6. simpl in S6.
  exists (ceil_div (lockoutTime - (now - sql_now t5)) 1000). split.
  - apply ceil_div_pos. lia.
  - rewrite (login_locked _ _ _ _ u' rest'); rewrite ?S7; simpl getTime;
      try assumption; try lia; [reflexivity |].
    unfold well_formed. rewrite S2, S3. auto.
Qed.
End LockoutTrace.

(** ** Tokens: issuance, rotation, logout *)

Section Tokens.
Context `{Env}.

Lemma validateUserId_pos uid : validateUserId uid = true <-> 0 < uid.
Proof.
  unfold validateUserId. destruct (uid =? 0) eqn:E.
  - apply Z.eqb_eq in E. split; [discriminate | lia].
  - apply Z.ltb_lt.
Qed.

Lemma generateToken_Some uid role now t :
  generateToken uid role now = Some t ->
  t = jwt_sign uid (Some role) None (now / 1000) JWT_SECRET JWT_EXPIRES_IN.
Proof.
  unfold generateToken.
  destruct (negb (validateUserId uid)); [discriminate |].
  destruct (String.eqb role EmptyString); [discriminate |]. congruence.
Qed.

Lemma generateRefreshToken_Some uid now t :
  generateRefreshToken uid now = Some t ->
  t = jwt_sign uid None (Some "refresh") (now / 1000)
        JWT_SECRET REFRESH_TOKEN_EXPIRES_IN.
Proof.
  unfold generateRefreshToken.
  destruct (negb (validateUserId uid)); [discriminate |]. congruence.
Qed.

Lemma verifyRefreshToken_Some key payload now decoded :
  verifyRefreshToken (Jwt key payload) now = Some decoded ->
  decoded = payload.
Proof.
  unfold verifyRefreshToken, jwt_verify.
  destruct (String.eqb key JWT_SECRET); [| discriminate].
  destruct (exp payload <=? now / 1000); [discriminate |].
  destruct (negb (bool_decide _)); [discriminate |].
  destruct (negb (validateUserId _)); [discriminate |]. congruence.
Qed.

(** C3, as the code has it.  A well-formed login with the right secret
    for an active, unlocked account with a positive id is answered 200
    with an access token whose claims are the account's id and role and
    the times [iat] and [exp] -- no permission claim; the stored overrides,
    parsed, are reported in the response body -- and with a refresh token
    that is, after the request, the stored pointer of every row of the
    account. *)
Theorem login_issues_role_token users now email_ password_ u rest :
  well_formed email_ password_ u ->
  filter (fun u => email u = email_) users = u :: rest ->
  0 < id u ->
  is_active u = true ->
  unlocked u now ->
  comparePassword password_ (password u) = true ->
  let accessToken :=
    Jwt JWT_SECRET {| userId := id u; claim_role := Some (role u);
                      claim_type := None; iat := now / 1000;
                      exp := now / 1000 + JWT_EXPIRES_IN |} in
  let refreshToken :=
    Jwt JWT_SECRET {| userId := id u; claim_role := None;
                      claim_type := Some "refresh"; iat := now / 1000;
                      exp := now / 1000 + REFRESH_TOKEN_EXPIRES_IN |} in
  fst (login users now email_ password_)
  = reply 200
      (LoginSuccessful "Login successful" accessToken refreshToken
         {| data_id := id u; data_email := email u;
            data_full_name := full_name u; data_role := role u;
            data_permissions := parsePermissions (permissions u) |})
  /\ pointers (id u) (after users now (Login email_ password_))
     = repeat (Some refreshToken) (length (rows (id u) users))
  /\ (0 < length (rows (id u) users))%nat.
Proof.
  intros Hwf Hsel Hid Hact Hun Hright accessToken refreshToken.
  assert (login users now email_ password_
          = (reply 200
               (LoginSuccessful "Login successful" accessToken refreshToken
                  {| data_id := id u; data_email := email u;
                     data_full_name := full_name u; data_role := role u;
                     data_permissions := parsePermissions (permissions u) |}),
             (if 5 <=? failed_login_attempts u
              then [Sql (ResetFailedAttempts (id u))] else [])
             ++ [BcryptCompare password_ (password u);
                 Sql (RecordSuccessfulLogin (id u) now);
                 Sql (SetRefreshToken (id u) (Some refreshToken))])) as E.
  { rewrite (login_found _ _ _ _ _ _ Hwf Hsel), Hact.
    rewrite (lockout_gate_unlocked _ _ Hun). simpl. rewrite Hright. simpl.
    unfold generateToken, generateRefreshToken.
    apply validateUserId_pos in Hid. rewrite Hid. simpl.
    destruct Hwf as (_ & _ & _ & Hrole). apply String.eqb_neq in Hrole.
    rewrite Hrole. rewrite <- !app_assoc. reflexivity. }
  split; [rewrite E; reflexivity |]. split.
  - unfold after, handle. rewrite E. simpl snd.
    change [BcryptCompare password_ (password u);
            Sql (RecordSuccessfulLogin (id u) now);
            Sql (SetRefreshToken (id u) (Some refreshToken))]
      with ([BcryptCompare password_ (password u);
             Sql (RecordSuccessfulLogin (id u) now)]
            ++ [Sql (SetRefreshToken (id u) (Some refreshToken))]).
    rewrite app_assoc, replay_app. simpl.
    rewrite pointers_exec_set, rows_length_replay. reflexivity.
  - apply selected_row in Hsel as [Hin _].
    assert (In u (rows (id u) users)) as Hrow
      by (apply rows_In; split; [assumption | reflexivity]).
    destruct (rows (id u) users); [destruct Hrow | simpl; lia].
Qed.

(** *** What the routes write to the pointer *)

Ltac split_handler :=
  repeat match goal with
         | |- context [match ?x with _ => _ end] =>
             match type of x with
             | sumbool _ _ => fail 1
             | _ => destruct x eqn:?
             end
         end.

Lemma lockout_gate_resets u now resets :
  lockout_gate u now = inr resets ->
  resets = [] \/ resets = [Sql (ResetFailedAttempts (id u))].
Proof.
  unfold lockout_gate.
  destruct (5 <=? _); [destruct (_ <? _); [discriminate |] |];
    intros [= <-]; auto.
Qed.

(** Every pointer a route stores is NULL or the refresh token generated
    for that account during the second of the request. *)
Lemma handle_pointer_writes users now r target value :
  In (Sql (SetRefreshToken target value)) (snd (handle users now r)) ->
  value = None
  \/ value = Some (jwt_sign target None (Some "refresh") (now / 1000)
                     JWT_SECRET REFRESH_TOKEN_EXPIRES_IN).
Proof.
  destruct r as [email_ password_ | refreshToken | bearer];
    unfold handle, login, refresh, logout;
    split_handler; simpl; rewrite ?in_app_iff; simpl;
    repeat match goal with
           | E : lockout_gate _ _ = inr _ |- _ =>
               apply lockout_gate_resets in E as [-> | ->]
           end; simpl;
    intuition (try discriminate);
    repeat match goal with
           | E : Sql _ = Sql _ |- _ => injection E as E
           | E : SetRefreshToken _ _ = SetRefreshToken _ _ |- _ =>
               injection E as <- <-
           end;
    subst; try (left; reflexivity);
    right; f_equal; eapply generateRefreshToken_Some; eassumption.
Qed.

Lemma exec_update_In upd users row' :
  In row' (exec_update upd users) ->
  exists row, In row users
              /\ (row' = row
                  \/ (id row = update_target upd /\ row' = update_row upd row)).
Proof.
  unfold exec_update. intros (row & E & Hin)%in_map_iff.
  exists row. split; [assumption |].
  destruct (id row =? update_target upd) eqn:T.
  - right. apply Z.eqb_eq in T. auto.
  - left. auto.
Qed.

Lemma superseded_exec_update T uid upd users :
  (forall target value, upd = SetRefreshToken target value ->
                        value <> Some T) ->
  superseded T uid users -> superseded T uid (exec_update upd users).
Proof.
  intros Hupd Hsup row' Hin Hid.
  apply exec_update_In in Hin as (row & Hrow & [-> | [_ ->]]).
  - apply Hsup; assumption.
  - rewrite update_row_id in Hid. specialize (Hsup row Hrow Hid).
    destruct upd; simpl; try assumption.
    eapply Hupd. reflexivity.
Qed.

Lemma superseded_replay T uid log : forall users,
  (forall target value, In (Sql (SetRefreshToken target value)) log ->
                        value <> Some T) ->
  superseded T uid users -> superseded T uid (replay log users).
Proof.
  induction log as [| [upd | p h] log IH]; intros users Hlog Hsup; simpl.
  - assumption.
  - apply IH; [intros; eapply Hlog; right; eassumption |].
    apply superseded_exec_update; [| assumption].
    intros target value ->. eapply Hlog. left. reflexivity.
  - apply IH; [intros; eapply Hlog; right; eassumption | assumption].
Qed.

Lemma superseded_exec_set T uid value users :
  value <> Some T ->
  superseded T uid (exec_update (SetRefreshToken uid value) users).
Proof.
  intros Hne row' Hin Hid. unfold exec_update in Hin.
  apply in_map_iff in Hin as (row & <- & _). simpl in *.
  destruct (id row =? uid) eqn:E; [exact Hne |].
  apply Z.eqb_neq in E. contradiction.
Qed.

(** A request made in a later second than the one [T] was issued in
    cannot store [T] again. *)
Lemma superseded_after key payload users now r :
  iat payload < now / 1000 ->
  superseded (Jwt key payload) (userId payload) users ->
  superseded (Jwt key payload) (userId payload) (after users now r).
Proof.
  intros Hiat Hsup. unfold after. apply superseded_replay; [| assumption].
  intros target value Hin E.
  apply handle_pointer_writes in Hin as [-> | ->]; [discriminate |].
  unfold jwt_sign in E. injection E as _ <-. simpl in Hiat. lia.
Qed.

Lemma superseded_run key payload t1 between : forall users,
  iat payload < t1 / 1000 ->
  Forall (fun timed : Z * request => t1 <= fst timed) between ->
  superseded (Jwt key payload) (userId payload) users ->
  superseded (Jwt key payload) (userId payload) (run users between).
Proof.
  induction between as [| [t r] between IH]; intros users Hiat Hlater Hsup;
    [assumption |].
  apply Forall_cons in Hlater as [Ht Hlater]. simpl in Ht.
  rewrite run_cons. apply IH; try assumption.
  apply superseded_after; [| assumption].
  assert (t1 / 1000 <= t / 1000) by (apply Z.div_le_mono; lia). simpl. lia.
Qed.

(** A token that is nobody's current pointer is refused. *)
Lemma refresh_superseded key payload users now :
  superseded (Jwt key payload) (userId payload) users ->
  refresh users now (Jwt key payload) = (invalid_refresh_token, []).
Proof.
  intros Hsup. unfold refresh. simpl token_missing. cbv iota.
  destruct (verifyRefreshToken (Jwt key payload) now) as [decoded |] eqn:V;
    [| reflexivity].
  apply verifyRefreshToken_Some in V as ->.
  destruct (userId payload =? 0); [reflexivity |].
  destruct (filter _ users) as [| user rest] eqn:Hsel; [reflexivity |].
  apply selected_row in Hsel as [Hin [Hid Hptr]].
  exfalso. exact (Hsup user Hin Hid Hptr).
Qed.

(** What a successful refresh did. *)
Lemma refresh_ok users now T :
  status (fst (refresh users now T)) = 200 ->
  exists key payload user rest,
    T = Jwt key payload
    /\ filter (fun u => id u = userId payload /\ refresh_token u = Some T)
              users = user :: rest
    /\ refresh users now T
       = (reply 200
            (TokenRefreshed "Token refreshed successfully"
               (jwt_sign (id user) (Some (role user)) None (now / 1000)
                  JWT_SECRET JWT_EXPIRES_IN)
               (jwt_sign (id user) None (Some "refresh") (now / 1000)
                  JWT_SECRET REFRESH_TOKEN_EXPIRES_IN)),
          [Sql (SetRefreshToken (id user)
                  (Some (jwt_sign (id user) None (Some "refresh")
                           (now / 1000) JWT_SECRET
                           REFRESH_TOKEN_EXPIRES_IN)))]).
Proof.
  unfold refresh.
  destruct (token_missing T); [discriminate |].
  destruct (verifyRefreshToken T now) as [decoded |] eqn:V; [| discriminate].
  destruct T as [text | key payload];
    [unfold verifyRefreshToken in V; discriminate V |].
  apply verifyRefreshToken_Some in V as ->.
  destruct (userId payload =? 0); [discriminate |].
  destruct (filter _ users) as [| user rest] eqn:Hsel; [discriminate |].
  destruct (_ || _); [discriminate |].
  destruct (generateToken _ _ _) as [a |] eqn:Ga; [| discriminate].
  destruct (generateRefreshToken _ _) as [r |] eqn:Gr; [| discriminate].
  apply generateToken_Some in Ga as ->.
  apply generateRefreshToken_Some in Gr as ->.
  intros _. exists key, payload, user, rest. auto.
Qed.

(** C1, as the code has it.  After a refresh presenting [T] has been
    answered 200 -- [T] having been issued in an earlier second than that
    refresh -- and whatever requests follow it, a refresh presenting [T]
    is answered 401 INVALID_REFRESH_TOKEN, the answer every refused
    refresh token gets, and performs no effect: no token pair is issued
    and the table is unchanged. *)
Theorem superseded_refresh_token_rejected
    users t1 key payload between t2 :
  status (fst (refresh users t1 (Jwt key payload))) = 200 ->
  iat payload < t1 / 1000 ->
  Forall (fun timed : Z * request => t1 <= fst timed) between ->
  refresh (run (after users t1 (Refresh (Jwt key payload))) between)
          t2 (Jwt key payload)
  = (reply 401 (Failure "Invalid refresh token" "INVALID_REFRESH_TOKEN"), []).
Proof.
  intros Hok Hiat Hlater.
  apply refresh_superseded, superseded_run with (t1 := t1); try assumption.
  apply refresh_ok in Hok as (key' & payload' & user & rest & E & Hsel & Hr).
  injection E as <- <-.
  apply selected_row in Hsel as [_ [Hid _]].
  unfold after, handle. rewrite Hr. simpl. rewrite Hid.
  apply superseded_exec_set. unfold jwt_sign. intros [= _ E].
  rewrite <- E in Hiat. simpl in Hiat. lia.
Qed.

(** *** Logout *)






(** *** [authenticateToken] *)

Lemma not_expired_ms now seconds :
  now / 1000 < seconds <-> now < seconds * 1000.
Proof.
  pose proof (Z.div_mod now 1000 ltac:(lia)).
  pose proof (Z.mod_pos_bound now 1000 ltac:(lia)). lia.
Qed.

Lemma authenticateToken_ok users now key payload :
  (exists ru, authenticateToken users now (Jwt key payload) = inr ru) <->
  key = JWT_SECRET /\ now / 1000 < exp payload /\ 0 < userId payload
  /\ exists user rest,
       filter (fun u => id u = userId payload /\ is_active u = true) users
       = user :: rest.
Proof.
  unfold authenticateToken, jwt_verify, sanitizeParam.
  simpl token_missing. cbv iota.
  destruct (String.eqb key JWT_SECRET) eqn:K;
    [apply String.eqb_eq in K | apply String.eqb_neq in K].
  2: { split; [intros [? [=]] | intros [? _]; contradiction]. }
  destruct (exp payload <=? now / 1000) eqn:X;
    [apply Z.leb_le in X | apply Z.leb_gt in X].
  { split; [intros [? [=]] | intros (_ & ? & _); lia]. }
  assert ((negb (exp payload =? 0) && (exp payload * 1000 <=? now)) = false)
    as ->.
  { apply andb_false_iff. right. apply Z.leb_gt, not_expired_ms, X. }
  destruct (validateUserId (userId payload)) eqn:V; simpl negb; cbv iota.
  2: { split; [intros [? [=]] |].
       intros (_ & _ & Hpos%validateUserId_pos & _). congruence. }
  apply validateUserId_pos in V.
  assert ((userId payload =? 0) = false) as -> by (apply Z.eqb_neq; lia).
  destruct (filter _ users) as [| user rest] eqn:Hsel.
  { split; [intros [? [=]] | intros (_ & _ & _ & ? & ? & [=])]. }
  apply selected_row in Hsel as [_ [_ Hact]]. rewrite Hact. simpl.
  split; [intros _ | intros _; eauto]. repeat split; eauto.
Qed.

Lemma authenticateToken_user users now key payload ru :
  authenticateToken users now (Jwt key payload) = inr ru ->
  exists user rest,
    filter (fun u => id u = userId payload /\ is_active u = true) users
    = user :: rest
    /\ ru = req_user_of user.
Proof.
  unfold authenticateToken, sanitizeParam. simpl token_missing. cbv iota.
  destruct (jwt_verify _ _ _) as [[] | decoded] eqn:V;
    try discriminate.
  assert (decoded = payload) as ->.
  { unfold jwt_verify in V. destruct (String.eqb _ _); [| discriminate].
    destruct (_ <=? _); [discriminate |]. congruence. }
  destruct (_ && _); [discriminate |].
  destruct (negb (validateUserId _)); [discriminate |].
  destruct (userId payload =? 0); [discriminate |].
  destruct (filter _ users) as [| user rest]; [discriminate |].
  destruct (negb (is_active user)); [discriminate |].
  intros [= <-]. eauto.
Qed.

Lemma update_row_same_account upd row :
  same_account row (update_row upd row).
Proof. destruct upd; repeat split. Qed.

Lemma same_account_trans a b c :
  same_account a b -> same_account b c -> same_account a c.
Proof. unfold same_account. intuition congruence. Qed.

(** The row a token names stays selectable, with the same identity,
    through every request. *)
Lemma select_active_exec_update_head uid upd users user rest :
  filter (fun u => id u = uid /\ is_active u = true) users = user :: rest ->
  exists user' rest',
    filter (fun u => id u = uid /\ is_active u = true)
           (exec_update upd users) = user' :: rest'
    /\ same_account user user'.
Proof.
  intros Hsel. rewrite select_active_exec_update, Hsel.
  unfold exec_update. simpl.
  destruct (id user =? update_target upd); eexists; eexists;
    (split; [reflexivity |]).
  - apply update_row_same_account.
  - repeat split.
Qed.

Lemma select_active_replay uid log : forall users user rest,
  filter (fun u => id u = uid /\ is_active u = true) users = user :: rest ->
  exists user' rest',
    filter (fun u => id u = uid /\ is_active u = true) (replay log users)
    = user' :: rest'
    /\ same_account user user'.
Proof.
  induction log as [| [upd | p h] log IH]; intros users user rest Hsel.
  - exists user, rest. split; [assumption | repeat split].
  - simpl.
    destruct (select_active_exec_update_head uid upd _ _ _ Hsel)
      as (user1 & rest1 & Hsel1 & Hsame1).
    destruct (IH _ _ _ Hsel1) as (user2 & rest2 & Hsel2 & Hsame2).
    exists user2, rest2. split; [exact Hsel2 |].
    eapply same_account_trans; eassumption.
  - simpl. eapply IH. exact Hsel.
Qed.

Lemma select_active_run uid between : forall users user rest,
  filter (fun u => id u = uid /\ is_active u = true) users = user :: rest ->
  exists user' rest',
    filter (fun u => id u = uid /\ is_active u = true) (run users between)
    = user' :: rest'
    /\ same_account user user'.
Proof.
  induction between as [| [t r] between IH]; intros users user rest Hsel.
  - exists user, rest. split; [assumption | repeat split].
  - rewrite run_cons. unfold after.
    destruct (select_active_replay uid (snd (handle users t r)) _ _ _ Hsel)
      as (user1 & rest1 & Hsel1 & Hsame1).
    destruct (IH _ _ _ Hsel1) as (user2 & rest2 & Hsel2 & Hsame2).
    exists user2, rest2. split; [exact Hsel2 |].
    eapply same_account_trans; eassumption.
Qed.

End Tokens.

(** ** The rate limiter *)

(** What a limiter writes does not depend on its maximum: the limiters of
    all routes keep one count per client between them. *)
Lemma limiters_share_one_record key now store :
  fst (login_rateLimit key now store) = fst (refresh_rateLimit key now store).
Proof.
  unfold login_rateLimit, refresh_rateLimit, rateLimit.
  destruct (store !! key) as [record |]; [| reflexivity].
  destruct (resetTime record <? now); simpl;
    repeat match goal with |- context [if ?c then _ else _] => destruct c end;
    reflexivity.
Qed.

(** C4 fails on the code: the limiters of /auth/login (5 per window) and of
    /auth/refresh (10 per window) count in the same record of the same
    [rateLimitStore], keyed by the client address alone.  A client that has
    made five refresh requests, all let through, has its first login
    request answered 429, although on an untouched store the same login
    request is let through. *)
Theorem refresh_requests_exhaust_login_budget :
  let store := fold_left (counted refresh_rateLimit client) [0; 1; 2; 3; 4] ∅ in
  Forall (fun now =>
            snd (refresh_rateLimit client now
                   (fold_left (counted refresh_rateLimit client)
                              (filter (fun t => t < now) [0; 1; 2; 3; 4]) ∅))
            = None) [0; 1; 2; 3; 4]
  /\ store !! client = Some {| count := 5; resetTime := 900000 |}
  /\ snd (login_rateLimit client 5 store)
     = Some (reply 429 (FailureRetry "Too many requests" "RATE_LIMIT_EXCEEDED"
                          900))
  /\ snd (login_rateLimit client 5 ∅) = None.
Proof.
  split; [| split; [| split]].
  - repeat constructor.
  - vm_compute. reflexivity.
  - vm_compute. reflexivity.
  - vm_compute. reflexivity.
Qed.

(** ** The properties at concrete requests *)



(** The same for the values of a stored object. *)
Example object_values_all_is_kept :
  @parsePermissions sample_env
    (JObj [("0", JStr "courses:admin"); ("1", JStr "all")])
  = [JStr "courses:admin"; JStr "all"].
Proof. reflexivity. Qed.

(** C7: an unknown address on an empty table, and a wrong secret for ada. *)
Lemma invalid_credentials_identical_witness :
  fst (@login sample_env [] 5000 "eve@example.com" "guess")
  = fst (@login sample_env [ada 2 (Some 1000)] 7000 ada_email "guess")
  /\ fst (@login sample_env [] 5000 "eve@example.com" "guess")
     = reply 401 (Failure "Invalid credentials" "INVALID_CREDENTIALS").
Proof.
  apply (@invalid_credentials_identical sample_env
           [] [ada 2 (Some 1000)] 5000 7000 "eve@example.com" ada_email
           "guess" "guess" (ada 2 (Some 1000)) []).
  - discriminate.
  - discriminate.
  - reflexivity.
  - repeat split; discriminate.
  - reflexivity.
  - reflexivity.
  - left. simpl. lia.
  - reflexivity.
Defined.

(** C10: a suspended account inside a lockout, with the right secret. *)
Lemma inactive_account_suspended_witness :
  let users := [account 1 ada_email false 9 (Some 4000) JNull
                  (Some (refresh_token_of 3))] in
  @login sample_env users 5000 ada_email "secret"
  = (reply 403 (Failure "Account is suspended" "ACCOUNT_SUSPENDED"), [])
  /\ @after sample_env users 5000 (Login ada_email "secret") = users.
Proof.
  apply (@inactive_account_suspended sample_env _ 5000 ada_email "secret"
           (account 1 ada_email false 9 (Some 4000) JNull
              (Some (refresh_token_of 3))) []).
  - repeat split; discriminate.
  - reflexivity.
  - reflexivity.
Defined.

(** C8, amended: an unknown address on a table that holds ada. *)
Lemma unknown_identifier_skips_comparison_witness :
  @login sample_env [ada 0 None] 5000 "eve@example.com" "guess"
  = (invalid_credentials, [])
  /\ ~ compares_hash
         (snd (@login sample_env [ada 0 None] 5000 "eve@example.com" "guess")).
Proof.
  apply (@unknown_identifier_skips_comparison sample_env
           [ada 0 None] 5000 "eve@example.com" "guess").
  - discriminate.
  - discriminate.
  - reflexivity.
Defined.

(** C8 as the specification words it fails: nothing is compared. *)
Lemma unknown_identifier_no_dummy_comparison :
  ~ @spec_dummy_comparison sample_env [ada 0 None] 5000
      "eve@example.com" "guess".
Proof.
  unfold spec_dummy_comparison. intros Hspec.
  destruct Hspec as (p & h & Hin); [discriminate | discriminate | reflexivity |].
  exact Hin.
Qed.

(** C5, amended: a wrong secret after an expired lockout leaves 1. *)
Lemma failed_attempts_rule_witness :
  counters 1 (@after sample_env [ada 7 (Some 0)] 1000000
                (Login ada_email "guess")) = [1]
  /\ (sets_counter_to_zero 1
        (snd (@login sample_env [ada 7 (Some 0)] 1000000 ada_email "guess"))
      <-> is_active (ada 7 (Some 0)) = true
          /\ unlocked (ada 7 (Some 0)) 1000000
          /\ (@comparePassword sample_env "guess" "bcrypt:secret" = true
              \/ 5 <= 7)).
Proof.
  apply (@failed_attempts_rule sample_env [ada 7 (Some 0)] 1000000
           ada_email "guess" (ada 7 (Some 0)) []).
  - repeat split; discriminate.
  - reflexivity.
Defined.

(** C5 as the specification words it fails: with the counter at 3 and the
    last failure more than [lockoutTime] ago, a wrong secret resets nothing
    and the counter goes to 4. *)
Lemma stale_failures_are_not_reset :
  ~ @spec_reset_rule sample_env [ada 3 (Some 0)] 1000000 ada_email "guess".
Proof.
  unfold spec_reset_rule. intros Hspec.
  destruct (Hspec (ada 3 (Some 0)) [] eq_refl) as [Hreset _].
  assert (lockoutTime <= 1000000 - getTime (last_failed_login (ada 3 (Some 0))))
    as Helapsed by (vm_compute; discriminate).
  specialize (Hreset (or_intror Helapsed)).
  vm_compute in Hreset. discriminate Hreset.
Qed.

Example stale_failures_counter :
  counters 1 (@after sample_env [ada 3 (Some 0)] 1000000
                (Login ada_email "guess")) = [4].
Proof. reflexivity. Qed.

(** C2: five wrong secrets from second 1 to second 5, then the right one
    at second 6. *)
Lemma lockout_precedes_credential_check_witness :
  exists retryAfter,
    0 < retryAfter
    /\ @login sample_env
         (@run sample_env [ada 0 None]
            (login_attempts ada_email
               ([(1000, "a"); (2000, "b"); (3000, "c"); (4000, "d")]
                ++ [(5000, "e")])))
         6000 ada_email "secret"
       = (reply 429
            (FailureRetry
               "Account temporarily locked due to too many failed attempts"
               "ACCOUNT_LOCKED" retryAfter), []).
Proof.
  apply (@lockout_precedes_credential_check sample_env [ada 0 None] ada_email
           (ada 0 None) []
           [(1000, "a"); (2000, "b"); (3000, "c"); (4000, "d")]
           5000 "e" 6000 "secret").
  - repeat split; discriminate.
  - reflexivity.
  - reflexivity.
  - reflexivity.
  - reflexivity.
  - repeat constructor; discriminate.
  - vm_compute. reflexivity.
Defined.

(** C3, amended: a first login of ada. *)
Lemma login_issues_role_token_witness :
  fst (@login sample_env [ada 0 None] 5000 ada_email "secret")
  = reply 200
      (LoginSuccessful "Login successful" (access_token_of 5)
         (refresh_token_of 5)
         {| data_id := 1; data_email := ada_email;
            data_full_name := "Test User"; data_role := "user";
            data_permissions := [] |})
  /\ pointers 1 (@after sample_env [ada 0 None] 5000
                   (Login ada_email "secret"))
     = [Some (refresh_token_of 5)]
  /\ (0 < 1)%nat.
Proof.
  apply (@login_issues_role_token sample_env [ada 0 None] 5000 ada_email
           "secret" (ada 0 None) []).
  - repeat split; discriminate.
  - reflexivity.
  - reflexivity.
  - reflexivity.
  - left. simpl. lia.
  - reflexivity.
Defined.

(** C3 as the specification words it fails: two accounts that differ only
    in their stored overrides get the same access token, so no reading of
    the token gives the permission set of both. *)
Lemma access_token_ignores_permissions :
  ~ exists read, @spec_token_embeds_permissions sample_env read.
Proof.
  intros [read Hspec].
  pose (plain := account 1 ada_email true 0 None (JArr []) None).
  pose (granted :=
          account 1 ada_email true 0 None (JArr [JStr "courses:admin"]) None).
  pose (base := [ "courses:view"; "courses:take"; "profile:edit";
                  "certificates:view"; "achievements:view";
                  "progress:view" ]).
  pose proof (Hspec [plain] 5000 ada_email "secret" plain [] _ _ _ _
                eq_refl eq_refl (map JStr base) eq_refl
                (JStr "courses:admin")) as [Hplain _].
  pose proof (Hspec [granted] 5000 ada_email "secret" granted [] _ _ _ _
                eq_refl eq_refl (map JStr (base ++ ["courses:admin"])) eq_refl
                (JStr "courses:admin")) as [_ Hgranted].
  assert (In (JStr "courses:admin") (map JStr base)) as Habsurd.
  { apply Hplain, Hgranted. vm_compute. tauto. }
  vm_compute in Habsurd. intuition discriminate.
Qed.

(** C1, amended: the token of second 1000000 is refreshed during second
    1000002; a login, a refresh with the new token and a logout follow. *)
Lemma superseded_refresh_token_rejected_witness :
  @refresh sample_env
    (@run sample_env
       (@after sample_env ada_signed_in 1000002500
          (Refresh (refresh_token_of 1000000)))
       [(1000003000, Login ada_email "secret");
        (1000004000, Refresh (refresh_token_of 1000003));
        (1000005000, Logout (access_token_of 1000003))])
    1000006000 (refresh_token_of 1000000)
  = (reply 401 (Failure "Invalid refresh token" "INVALID_REFRESH_TOKEN"), []).
Proof.
  apply (@superseded_refresh_token_rejected sample_env ada_signed_in
           1000002500 _ _
           [(1000003000, Login ada_email "secret");
            (1000004000, Refresh (refresh_token_of 1000003));
            (1000005000, Logout (access_token_of 1000003))]
           1000006000).
  - reflexivity.
  - vm_compute. reflexivity.
  - repeat constructor; simpl; lia.
Defined.

(** C1 as the specification words it fails: the superseded token and a
    token that expired long ago get the very same answer. *)
Lemma reused_token_answer_not_distinct :
  ~ @spec_reuse_is_distinguished sample_env ada_signed_in
      1000002500 1000003000 (refresh_token_of 1000000) (refresh_token_of 1000).
Proof.
  unfold spec_reuse_is_distinguished. intros Hspec.
  destruct (Hspec eq_refl eq_refl) as [_ Hdistinct].
  apply Hdistinct. reflexivity.
Qed.

(** Rotation within the second the token was issued in generates the same
    token again, which then stays current. *)
Example refresh_within_issuing_second :
  let T := refresh_token_of 1000000 in
  let users' := @after sample_env ada_signed_in 1000000500 (Refresh T) in
  pointers 1 users' = [Some T]
  /\ status (fst (@refresh sample_env users' 1000000900 T)) = 200.
Proof. split; reflexivity. Qed.



Example relogin_in_issuing_second :
  let users0 := @after sample_env [ada 0 None] 5000 (Login ada_email "secret") in
  let users1 := @after sample_env users0 5500 (Logout (access_token_of 5)) in
  let users2 := @after sample_env users1 5900 (Login ada_email "secret") in
  pointers 1 users0 = [Some (refresh_token_of 5)]
  /\ pointers 1 users1 = [None]
  /\ pointers 1 users2 = [Some (refresh_token_of 5)]
  /\ fst (@refresh sample_env users2 6500 (refresh_token_of 5))
     = reply 200
         (TokenRefreshed "Token refreshed successfully" (access_token_of 6)
            (refresh_token_of 6)).
Proof. repeat split. Qed.

(** * Further properties of the modules *)

(** ** backend/lib/rolePermissions.js *)

Lemma string_set_add_In set x y :
  In y (string_set_add set x) <-> In y set \/ y = x.
Proof.
  unfold string_set_add. destruct (includes set x) eqn:E.
  - apply includes_In in E. intuition congruence.
  - rewrite in_app_iff. simpl. intuition congruence.
Qed.

Lemma fold_string_set_add_In permissions : forall set y,
  In y (fold_left string_set_add permissions set)
  <-> In y set \/ In y permissions.
Proof.
  induction permissions as [| x permissions IH]; intros set y; simpl.
  - tauto.
  - rewrite IH, string_set_add_In. intuition congruence.
Qed.

Lemma sort_insert_In x sorted y :
  In y (sort_insert x sorted) <-> y = x \/ In y sorted.
Proof.
  induction sorted as [| z sorted IH]; simpl.
  - intuition congruence.
  - destruct (String.leb x z); simpl; rewrite ?IH; intuition congruence.
Qed.

Lemma js_sort_In array y : In y (js_sort array) <-> In y array.
Proof.
  unfold js_sort. induction array as [| x array IH]; simpl.
  - tauto.
  - rewrite sort_insert_In, IH. intuition congruence.
Qed.

Lemma hasPermission_array role rolePermissions permission :
  getPermissionsForRole role = Array rolePermissions ->
  hasPermission role permission = Return (includes rolePermissions permission).
Proof. unfold hasPermission. intros ->. reflexivity. Qed.

Lemma hasPermission_true role permission :
  hasPermission role permission = Return true <->
  exists rolePermissions,
    getPermissionsForRole role = Array rolePermissions
    /\ In permission rolePermissions.
Proof.
  unfold hasPermission.
  destruct (getPermissionsForRole role) as [rolePermissions | name]; simpl.
  - split.
    + intros [= Hin]. apply includes_In in Hin. eauto.
    + intros (l & [= <-] & Hin). apply includes_In in Hin. congruence.
  - split; [discriminate | intros (l & [=] & _)].
Qed.

(** [some] and [every] with a callback that does not throw. *)
Lemma some_Return {A} (test : A -> bool) array :
  some (fun x => Return (test x)) array = Return (existsb test array).
Proof.
  induction array as [| x array IH]; simpl; [reflexivity |].
  destruct (test x); simpl; [reflexivity | exact IH].
Qed.

Lemma every_Return {A} (test : A -> bool) array :
  every (fun x => Return (test x)) array = Return (forallb test array).
Proof.
  induction array as [| x array IH]; simpl; [reflexivity |].
  destruct (test x); simpl; [exact IH | reflexivity].
Qed.

(** X1.  The permissions of [user] are the floor of the table: a role has
    every one of them, whether the table lists the role or not -- unless
    the role is the name of a member of [Object.prototype], for which
    [hasPermission] throws a [TypeError]. *)
Theorem user_permissions_are_a_floor role permission :
  hasPermission "user" permission = Return true ->
  hasPermission role permission
  = if includes Object_prototype role then TypeError else Return true.
Proof.
  intros Huser. apply hasPermission_true in Huser as (base & Ebase & Hin).
  rewrite getPermissionsForRole_user in Ebase. injection Ebase as <-.
  destruct (includes Object_prototype role) eqn:P.
  - apply includes_In in P. unfold hasPermission.
    rewrite (getPermissionsForRole_prototype _ P). reflexivity.
  - apply includes_not_In in P.
    destruct (getPermissionsForRole_array role P) as (rp & E & _ & Hfloor).
    rewrite (hasPermission_array _ _ _ E). f_equal.
    apply includes_In, Hfloor, Hin.
Qed.

(** X2.  The two copies of the role hierarchy agree: [canManageRole]
    answers true exactly for the roles [getManageableRoles] lists, and then
    both roles are roles of the permission table; a role the hierarchy does
    not list manages nobody.  For the name of a member of
    [Object.prototype] [canManageRole] throws a [TypeError] and
    [getManageableRoles] returns the member. *)
Theorem canManageRole_iff_manageable currentRole targetRole :
  (In currentRole Object_prototype ->
   canManageRole currentRole targetRole = TypeError
   /\ getManageableRoles currentRole = Member currentRole)
  /\ (~ In currentRole Object_prototype ->
      exists roles,
        getManageableRoles currentRole = Array roles
        /\ canManageRole currentRole targetRole
           = Return (includes roles targetRole)
        /\ (property canManageRole_hierarchy currentRole = None ->
            roles = []))
  /\ (canManageRole currentRole targetRole = Return true ->
      isValidRole currentRole = true /\ isValidRole targetRole = true).
Proof.
  assert (getManageableRoles_hierarchy = canManageRole_hierarchy) as Hsame
    by reflexivity.
  split; [| split].
  - intros Hin. simpl in Hin.
    repeat destruct Hin as [<- | Hin]; try (split; reflexivity).
    destruct Hin.
  - intros Hout. apply includes_not_In in Hout.
    unfold canManageRole, getManageableRoles, js_get. rewrite Hsame, Hout.
    destruct (property canManageRole_hierarchy currentRole) as [roles |].
    + exists roles. rewrite orb_false_r. repeat split. discriminate.
    + exists []. repeat split.
  - unfold canManageRole, js_get.
    destruct (property canManageRole_hierarchy currentRole) as [roles |] eqn:P.
    + rewrite orb_false_r. intros [= Hin]. apply includes_In in Hin.
      revert P. unfold canManageRole_hierarchy, property.
      repeat match goal with
             | |- context [String.eqb ?a currentRole] =>
                 destruct (String.eqb a currentRole) eqn:?
             end;
        try discriminate;
        repeat match goal with
               | E : String.eqb _ currentRole = true |- _ =>
                   apply String.eqb_eq in E; subst currentRole
               end;
        intros [= <-]; simpl in Hin;
        intuition (subst; reflexivity).
    + destruct (includes Object_prototype currentRole); discriminate.
Qed.

(** X3.  A permission is valid exactly when some role of the table has it,
    and [getAllPermissions] lists the valid permissions in strictly
    ascending order, so each once. *)
Theorem isValidPermission_iff permission :
  (isValidPermission permission = true
   <-> exists role, In role getAllRoles
                    /\ hasPermission role permission = Return true)
  /\ Sorted (fun a b => String.ltb a b = true) getAllPermissions.
Proof.
  split.
  - unfold isValidPermission, getAllPermissions.
    rewrite includes_In, js_sort_In.
    assert (forall (tables : list (string * list string)) set,
               In permission
                  (fold_left (fun set permissions =>
                                fold_left string_set_add permissions set)
                             (map snd tables) set)
               <-> In permission set
                   \/ exists role permissions,
                        In (role, permissions) tables
                        /\ In permission permissions) as Hfold.
    { induction tables as [| [role permissions] tables IH]; intros set; simpl.
      - split; [tauto | intros [? | (? & ? & [] & _)]; assumption].
      - rewrite IH, fold_string_set_add_In. split.
        + intros [[? | ?] | (r & ps & Hin & Hp)]; eauto 8.
        + intros [? | (r & ps & [[= <- <-] | Hin] & Hp)]; eauto 8. }
    rewrite Hfold. split.
    + intros [Hnil | (role & permissions & Hin & Hp)]; [destruct Hnil |].
      exists role. split.
      * unfold getAllRoles. apply in_map_iff.
        exists (role, permissions). split; [reflexivity | exact Hin].
      * apply hasPermission_true. exists permissions. split; [| exact Hp].
        simpl in Hin.
        repeat destruct Hin as [[= <- <-] | Hin]; try destruct Hin;
          reflexivity.
    + intros (role & Hrole & Hp). right.
      apply hasPermission_true in Hp as (permissions & E & Hp).
      exists role, permissions. split; [| exact Hp].
      unfold getAllRoles in Hrole. simpl in Hrole.
      repeat destruct Hrole as [<- | Hrole]; try destruct Hrole;
        injection E as <-; simpl; auto 10.
  - vm_compute. repeat constructor.
Qed.

(** X4.  The role [super_admin] has every valid permission but two:
    [community:moderate_basic] and [users:view_profile], which only
    [user_support] has. *)
Theorem super_admin_lacks_two permission :
  isValidPermission permission = true ->
  (hasPermission "super_admin" permission = Return false
   <-> permission = "community:moderate_basic"
       \/ permission = "users:view_profile").
Proof.
  unfold isValidPermission. rewrite includes_In. intros Hin.
  vm_compute in Hin.
  repeat destruct Hin as [<- | Hin]; try destruct Hin;
    (split; [vm_compute; try discriminate; auto
            | intros [E | E]; try discriminate E; reflexivity]).
Qed.

(** ** backend/lib/permissions.js *)

Section UserPermissions.
Context `{Env}.

Lemma includes_value_string values s :
  includes_value values (JStr s) = true <-> In (JStr s) values.
Proof.
  unfold includes_value. rewrite existsb_exists. split.
  - intros (v & Hin & E). apply same_value_zero_eq in E. subst. assumption.
  - intros Hin. exists (JStr s). split; [assumption |].
    simpl. apply String.eqb_refl.
Qed.

(** What [getUserPermissions] returns for a role that is not the name of a
    member of [Object.prototype], and what it does for such a name. *)
Lemma getUserPermissions_array role stored :
  ~ In role Object_prototype ->
  exists rolePermissions resolved,
    getPermissionsForRole role = Array rolePermissions
    /\ getUserPermissions role stored = Return (Array resolved)
    /\ forall v, In v resolved <->
                 In v (map JStr rolePermissions)
                 \/ In v (parsePermissions stored).
Proof.
  intros Hout.
  destruct (getPermissionsForRole_array role Hout)
    as (rolePermissions & E & _ & _).
  unfold getUserPermissions. rewrite E.
  destruct (truthy stored) eqn:T; simpl;
    eexists; eexists; (split; [reflexivity |]); (split; [reflexivity |]);
    intros v.
  - rewrite array_from_set_In, in_app_iff. tauto.
  - rewrite (parsePermissions_falsy _ T). simpl. tauto.
Qed.

Lemma getUserPermissions_prototype role stored :
  In role Object_prototype ->
  getUserPermissions role stored
  = if truthy stored then TypeError else Return (Member role).
Proof.
  intros Hin. unfold getUserPermissions.
  rewrite (getPermissionsForRole_prototype _ Hin).
  destruct (truthy stored); reflexivity.
Qed.

Lemma In_map_JStr s l : In (JStr s) (map JStr l) <-> In s l.
Proof.
  rewrite in_map_iff. split.
  - intros (x & [= ->] & Hin). assumption.
  - intros Hin. exists s. auto.
Qed.

(** X5.  A user has a permission exactly when the role has it or the
    parsed stored permissions contain it: stored permissions only ever add
    to what the role grants.  For a role that is the name of a member of
    [Object.prototype] the check throws a [TypeError], with stored
    permissions or without. *)
Theorem userHasPermission_iff role permission stored :
  (In role Object_prototype ->
   userHasPermission role permission stored = TypeError)
  /\ (~ In role Object_prototype ->
      exists answer,
        userHasPermission role permission stored = Return answer
        /\ (answer = true
            <-> hasPermission role permission = Return true
                \/ In (JStr permission) (parsePermissions stored))).
Proof.
  split.
  - intros Hin. unfold userHasPermission.
    rewrite (getUserPermissions_prototype _ _ Hin).
    destruct (truthy stored); reflexivity.
  - intros Hout.
    destruct (getUserPermissions_array role stored Hout)
      as (rolePermissions & resolved & E & Eresolved & Hresolved).
    unfold userHasPermission. rewrite Eresolved. simpl.
    eexists. split; [reflexivity |].
    rewrite includes_value_string, Hresolved, In_map_JStr,
      (hasPermission_array _ _ _ E), <- includes_In.
    split; (intros [Hrole | Hstored]; [left | right; assumption]);
      congruence.
Qed.

Lemma normalize_all_not_all items :
  ~ In (JStr "all") (map normalize_all items).
Proof.
  intros (v & E & _)%in_map_iff. destruct v; simpl in E; try discriminate.
  destruct (String.eqb s "all") eqn:S; [discriminate E |].
  injection E as ->. discriminate S.
Qed.

(** X6.  The stored permission [all] is no wildcard for the checks: with
    the overrides [["all"]] a user has [system:full_access] and, of every
    other permission, exactly those of the role.  For a role that is the
    name of a member of [Object.prototype] the check throws a [TypeError],
    whatever is asked, nothing included. *)
Theorem all_override_grants_one_permission role permissions :
  (In role Object_prototype ->
   userHasAllPermissions role permissions (JArr [JStr "all"]) = TypeError)
  /\ (~ In role Object_prototype ->
      exists answer,
        userHasAllPermissions role permissions (JArr [JStr "all"])
        = Return answer
        /\ (answer = true
            <-> Forall (fun permission =>
                          hasPermission role permission = Return true
                          \/ permission = "system:full_access")
                       permissions)).
Proof.
  split.
  - intros Hin. unfold userHasAllPermissions.
    rewrite (getUserPermissions_prototype _ _ Hin). reflexivity.
  - intros Hout.
    destruct (getUserPermissions_array role (JArr [JStr "all"]) Hout)
      as (rolePermissions & resolved & E & Eresolved & Hresolved).
    unfold userHasAllPermissions. rewrite Eresolved. cbn [call_includes].
    rewrite every_Return. eexists. split; [reflexivity |].
    rewrite forallb_forall, List.Forall_forall.
    split; intros Hall permission Hin; specialize (Hall permission Hin).
    + apply includes_value_string, Hresolved in Hall.
      rewrite In_map_JStr in Hall.
      rewrite (hasPermission_array _ _ _ E).
      destruct Hall as [Hrole | [[= <-] | []]]; [left | right; reflexivity].
      apply includes_In in Hrole. congruence.
    + apply includes_value_string, Hresolved. rewrite In_map_JStr.
      rewrite (hasPermission_array _ _ _ E) in Hall.
      destruct Hall as [[= Hrole] | ->].
      * left. apply includes_In, Hrole.
      * right. left. reflexivity.
Qed.

(** X7.  [validatePermissionsForRole] splits the permissions, in their
    order, into those the role has and those it has not, and [isValid]
    says that the role has them all, as [hasAllPermissions] does.  For a
    role that is the name of a member of [Object.prototype] both throw a
    [TypeError] at the first permission; with no permission to look at
    they return. *)
Theorem validatePermissionsForRole_partition role permissions :
  (In role Object_prototype ->
   validatePermissionsForRole role permissions
   = match permissions with
     | [] => Return {| valid := []; invalid := []; isValid := true |}
     | _ :: _ => TypeError
     end
   /\ hasAllPermissions role permissions
      = match permissions with
        | [] => Return true
        | _ :: _ => TypeError
        end)
  /\ (~ In role Object_prototype ->
      exists rolePermissions,
        (forall permission,
            hasPermission role permission
            = Return (includes rolePermissions permission))
        /\ validatePermissionsForRole role permissions
           = Return
               {| valid := List.filter (includes rolePermissions) permissions;
                  invalid :=
                    List.filter
                      (fun permission =>
                         negb (includes rolePermissions permission))
                      permissions;
                  isValid := forallb (includes rolePermissions) permissions |}
        /\ hasAllPermissions role permissions
           = Return (forallb (includes rolePermissions) permissions)).
Proof.
  split.
  - intros Hin. unfold validatePermissionsForRole, hasAllPermissions.
    rewrite (getPermissionsForRole_prototype _ Hin).
    destruct permissions; split; reflexivity.
  - intros Hout.
    destruct (getPermissionsForRole_array role Hout)
      as (rolePermissions & E & _ & _).
    exists rolePermissions.
    split; [intros permission; apply hasPermission_array, E |].
    unfold validatePermissionsForRole, hasAllPermissions. rewrite E.
    split; [| cbn [call_includes]; apply every_Return].
    assert (forall permissions0 pushed,
               validate_each (Array rolePermissions) permissions0 pushed
               = Return
                   (fst pushed
                    ++ List.filter (includes rolePermissions) permissions0,
                    snd pushed
                    ++ List.filter
                         (fun p => negb (includes rolePermissions p))
                         permissions0)) as Heach.
    { induction permissions0 as [| p permissions0 IH]; intros [yes no];
        simpl.
      - rewrite !app_nil_r. reflexivity.
      - destruct (includes rolePermissions p); simpl; rewrite IH; simpl;
          rewrite <- ?app_assoc; reflexivity. }
    rewrite Heach. simpl. f_equal. f_equal.
    induction permissions as [| p permissions IH]; simpl; [reflexivity |].
    destruct (includes rolePermissions p); simpl; [exact IH | reflexivity].
Qed.

(** X8.  On an array, [parsePermissions] keeps every element in place, so
    the length and the duplicates, except that it writes
    [system:full_access] for [all]: the result never contains [all], and
    parsing it again changes nothing. *)
Theorem parsePermissions_array items :
  length (parsePermissions (JArr items)) = length items
  /\ ~ In (JStr "all") (parsePermissions (JArr items))
  /\ parsePermissions (JArr (parsePermissions (JArr items)))
     = parsePermissions (JArr items).
Proof.
  change (parsePermissions (JArr items)) with (map normalize_all items).
  change (parsePermissions (JArr (map normalize_all items)))
    with (map normalize_all (map normalize_all items)).
  split; [apply length_map |]. split; [apply normalize_all_not_all |].
  rewrite map_map. apply map_ext. intros v.
  destruct v; try reflexivity. simpl.
  destruct (String.eqb s "all") eqn:S; simpl; [reflexivity |].
  rewrite S. reflexivity.
Qed.
End UserPermissions.

(** ** The limiters *)

Lemma ceil_div_covers x : x <= 1000 * ceil_div x 1000.
Proof.
  unfold ceil_div.
  pose proof (Z.div_mod (- x) 1000 ltac:(lia)).
  pose proof (Z.mod_pos_bound (- x) 1000 ltac:(lia)). lia.
Qed.

Lemma rateLimit_in_window maxRequests windowMs key now
    (store : gmap string rate_record) record :
  store !! key = Some record ->
  now <= resetTime record ->
  rateLimit maxRequests windowMs key now store
  = (<[key := {| count := count record + 1;
                 resetTime := resetTime record |}]> store,
     if maxRequests <? count record + 1
     then Some (reply 429 (FailureRetry "Too many requests"
                             "RATE_LIMIT_EXCEEDED"
                             (ceil_div (resetTime record - now) 1000)))
     else None).
Proof.
  intros Hrec Hnow. unfold rateLimit. rewrite Hrec.
  assert ((resetTime record <? now) = false) as -> by (apply Z.ltb_ge; lia).
  simpl. destruct (maxRequests <? count record + 1); reflexivity.
Qed.

(** X9.  A client not yet in the store makes a first request at [t0] and
    then more, none later than [t0 + windowMs].  Every one of them is
    counted, the refused ones too, and the window end stays [t0 +
    windowMs]; the next request inside the window is refused exactly when
    the count it brings exceeds [maxRequests], with the time left to the
    window end, in seconds rounded up, as [retryAfter]. *)
Theorem rateLimit_counts_window maxRequests windowMs key t0 times
    (store : gmap string rate_record) :
  store !! key = None ->
  Forall (fun t => t <= t0 + windowMs) times ->
  let store' :=
    fold_left (counted (rateLimit maxRequests windowMs) key)
              (t0 :: times) store in
  store' !! key
  = Some {| count := 1 + Z.of_nat (length times);
            resetTime := t0 + windowMs |}
  /\ forall t, t <= t0 + windowMs ->
       snd (rateLimit maxRequests windowMs key t store')
       = if maxRequests <? 2 + Z.of_nat (length times)
         then Some (reply 429 (FailureRetry "Too many requests"
                                 "RATE_LIMIT_EXCEEDED"
                                 (ceil_div (t0 + windowMs - t) 1000)))
         else None.
Proof.
  intros Hnew Hin. simpl fold_left.
  assert (counted (rateLimit maxRequests windowMs) key store t0 !! key
          = Some {| count := 1; resetTime := t0 + windowMs |}) as Hfirst.
  { unfold counted, rateLimit. rewrite Hnew. simpl. apply lookup_insert_eq. }
  revert Hfirst.
  generalize (counted (rateLimit maxRequests windowMs) key store t0).
  assert (forall (s : gmap string rate_record) n,
             s !! key = Some {| count := n; resetTime := t0 + windowMs |} ->
             fold_left (counted (rateLimit maxRequests windowMs) key) times s
             !! key
             = Some {| count := n + Z.of_nat (length times);
                       resetTime := t0 + windowMs |}) as Hcount.
  { induction Hin as [| t times Ht _ IH]; intros s n Hs; simpl.
    - rewrite Hs. f_equal. f_equal. lia.
    - rewrite (IH _ (n + 1)).
      + f_equal. f_equal. lia.
      + unfold counted. rewrite (rateLimit_in_window _ _ _ _ _ _ Hs Ht).
        simpl. apply lookup_insert_eq. }
  intros s Hs. specialize (Hcount s 1 Hs). split; [exact Hcount |].
  intros t Ht. rewrite (rateLimit_in_window _ _ _ _ _ _ Hcount Ht). simpl.
  replace (1 + Z.of_nat (length times) + 1)
    with (2 + Z.of_nat (length times)) by lia.
  reflexivity.
Qed.

(** X10.  A refused request, for a limiter that allows one request at
    least: every request later than [retryAfter] seconds after it opens a
    new window and is let through; but a request exactly at the window end
    still counts in the old window and is refused, with [retryAfter] 0. *)
Theorem rateLimit_retryAfter maxRequests windowMs key now
    (store store' : gmap string rate_record) message code retryAfter :
  1 <= maxRequests ->
  rateLimit maxRequests windowMs key now store
  = (store', Some (reply 429 (FailureRetry message code retryAfter))) ->
  (forall later, now + 1000 * retryAfter < later ->
                 snd (rateLimit maxRequests windowMs key later store') = None)
  /\ exists record,
       store' !! key = Some record
       /\ now <= resetTime record
       /\ retryAfter = ceil_div (resetTime record - now) 1000
       /\ snd (rateLimit maxRequests windowMs key (resetTime record) store')
          = Some (reply 429 (FailureRetry "Too many requests"
                               "RATE_LIMIT_EXCEEDED" 0)).
Proof.
  intros Hmax. unfold rateLimit at 1.
  destruct (store !! key) as [record |] eqn:Hrec; [| intros [=]].
  destruct (resetTime record <? now) eqn:Hreset.
  { simpl. destruct (maxRequests <? 1) eqn:M; [| intros [=]].
    apply Z.ltb_lt in M. lia. }
  simpl. destruct (maxRequests <? count record + 1) eqn:M; [| intros [=]].
  intros [= <- <- <- <-]. apply Z.ltb_ge in Hreset. apply Z.ltb_lt in M.
  set (record' := {| count := count record + 1;
                     resetTime := resetTime record |}).
  assert (<[key := record']> store !! key = Some record') as Hrec'
    by apply lookup_insert_eq.
  split.
  - intros later Hlater. unfold rateLimit. rewrite Hrec'. simpl.
    pose proof (ceil_div_covers (resetTime record - now)).
    assert ((resetTime record <? later) = true) as ->
      by (apply Z.ltb_lt; lia).
    simpl. assert ((maxRequests <? 1) = false) as ->
      by (apply Z.ltb_ge; lia).
    reflexivity.
  - exists record'. repeat split; try assumption.
    rewrite (rateLimit_in_window _ _ _ _ _ _ Hrec') by (simpl; lia). simpl.
    assert ((maxRequests <? count record + 1 + 1) = true) as ->
      by (apply Z.ltb_lt; lia).
    rewrite Z.sub_diag. reflexivity.
Qed.

(** X11.  Clients with different keys share nothing: a request of one
    leaves the record of the other as it is, and the answer to a client
    depends on the store through that client's record only. *)
Theorem rateLimit_keys_independent maxRequests windowMs key other now
    (store store2 : gmap string rate_record) :
  (key <> other ->
   fst (rateLimit maxRequests windowMs key now store) !! other
   = store !! other)
  /\ (store !! key = store2 !! key ->
      snd (rateLimit maxRequests windowMs key now store)
      = snd (rateLimit maxRequests windowMs key now store2)).
Proof.
  unfold rateLimit. split.
  - intros Hne. destruct (store !! key) as [record |]; simpl.
    + destruct (maxRequests <? _); simpl; apply lookup_insert_ne, Hne.
    + apply lookup_insert_ne, Hne.
  - intros <-. destruct (store !! key) as [record |]; simpl; [| reflexivity].
    destruct (maxRequests <? _); reflexivity.
Qed.

(** X12.  [checkRateLimit] keeps the same books as [rateLimit]: the store
    after a request is the same, and for a maximum of one or more the
    request is allowed by the one exactly when the other lets it through. *)
Theorem checkRateLimit_agrees identifier maxRequests windowMs now
    (store : gmap string rate_record) :
  fst (checkRateLimit identifier maxRequests windowMs now store)
  = fst (rateLimit maxRequests windowMs identifier now store)
  /\ (1 <= maxRequests ->
      (snd (checkRateLimit identifier maxRequests windowMs now store) = true
       <-> snd (rateLimit maxRequests windowMs identifier now store) = None)).
Proof.
  unfold checkRateLimit, rateLimit.
  destruct (store !! identifier) as [record |]; simpl; [| tauto].
  destruct (resetTime record <? now); simpl.
  - destruct (maxRequests <? 1) eqn:M; simpl; split; try reflexivity;
      intros Hmax; [apply Z.ltb_lt in M; lia | tauto].
  - destruct (maxRequests <? count record + 1); simpl; split;
      try reflexivity; intros _; split; intros [=]; reflexivity.
Qed.

(** ** Authentication and authorization middleware *)

Section Middleware.
Context `{Env}.

(** X13.  [authenticateToken] does not look at the [type] claim: the
    refresh token of an active account passes it as an access token does,
    for as long as the refresh token has not expired. *)
Theorem authenticateToken_accepts_refresh_token
    users uid issued now T u rest :
  generateRefreshToken uid issued = Some T ->
  filter (fun u => id u = uid /\ is_active u = true) users = u :: rest ->
  now / 1000 < issued / 1000 + REFRESH_TOKEN_EXPIRES_IN ->
  authenticateToken users now T = inr (req_user_of u).
Proof.
  intros Hgen Hsel Hexp.
  assert (0 < uid) as Hpos.
  { apply validateUserId_pos. unfold generateRefreshToken in Hgen.
    destruct (validateUserId uid); [reflexivity | discriminate Hgen]. }
  apply generateRefreshToken_Some in Hgen as ->. unfold jwt_sign.
  assert (exists ru,
             authenticateToken users now
               (Jwt JWT_SECRET
                  {| userId := uid; claim_role := None;
                     claim_type := Some "refresh"; iat := issued / 1000;
                     exp := issued / 1000 + REFRESH_TOKEN_EXPIRES_IN |})
             = inr ru) as [ru Hru].
  { apply authenticateToken_ok. simpl. repeat split; eauto. }
  rewrite Hru. f_equal.
  apply authenticateToken_user in Hru as (u' & rest' & Hsel' & ->).
  simpl in Hsel'. rewrite Hsel in Hsel'. injection Hsel' as <- <-.
  reflexivity.
Qed.

(** X14.  The refresh route refuses every access token: a token made by
    [generateToken] is answered 401 INVALID_REFRESH_TOKEN, with no
    effect. *)
Theorem refresh_rejects_access_token users uid role issued now T :
  generateToken uid role issued = Some T ->
  refresh users now T = (invalid_refresh_token, []).
Proof.
  intros Hgen. apply generateToken_Some in Hgen as ->.
  unfold refresh, jwt_sign. simpl token_missing. cbv iota.
  unfold verifyRefreshToken, jwt_verify.
  destruct (String.eqb JWT_SECRET JWT_SECRET); [| reflexivity].
  destruct (_ <=? _); reflexivity.
Qed.

(** X15.  Behind [authenticateToken], [authorizeRole] decides on the role
    the account has in the table at the time of the request, not on the
    role claim of the token: the request goes through when that role is
    among the required ones, and is answered 403 naming it otherwise. *)
Theorem authorizeRole_uses_stored_role users now key payload roles ru :
  authenticateToken users now (Jwt key payload) = inr ru ->
  exists u rest,
    filter (fun u => id u = userId payload /\ is_active u = true) users
    = u :: rest
    /\ authenticate_then (authorizeRole roles) users now (Jwt key payload)
       = if includes roles (role u) then inr ru
         else inl (inr (InsufficientRole roles (role u))).
Proof.
  intros Hauth.
  destruct (authenticateToken_user _ _ _ _ _ Hauth)
    as (u & rest & Hsel & ->).
  exists u, rest. split; [exact Hsel |].
  unfold authenticate_then, authorizeRole. rewrite Hauth. simpl.
  destruct (includes roles (role u)); reflexivity.
Qed.

(** X16.  Behind [authenticateToken], [authorizePermission] looks at the
    parsed stored permissions of the account only: the request goes
    through exactly when each required permission is among them, whatever
    the role grants; so an account without stored permissions is refused
    every non-empty requirement. *)
Theorem authorizePermission_uses_stored_only
    users now key payload required ru :
  authenticateToken users now (Jwt key payload) = inr ru ->
  exists u rest,
    filter (fun u => id u = userId payload /\ is_active u = true) users
    = u :: rest
    /\ (authenticate_then (authorizePermission required) users now
          (Jwt key payload) = inr ru
        <-> Forall (fun p => In (JStr p) (parsePermissions (permissions u)))
                   required)
    /\ (truthy (permissions u) = false -> required <> [] ->
        authenticate_then (authorizePermission required) users now
          (Jwt key payload)
        = inl (inr (InsufficientPermissions required []))).
Proof.
  intros Hauth.
  destruct (authenticateToken_user _ _ _ _ _ Hauth)
    as (u & rest & Hsel & ->).
  exists u, rest. split; [exact Hsel |].
  unfold authenticate_then, authorizePermission. rewrite Hauth. simpl.
  split.
  - destruct (forallb _ required) eqn:A; simpl.
    + split; [intros _ | reflexivity].
      apply List.Forall_forall. intros p Hp.
      rewrite forallb_forall in A. apply includes_value_string, A, Hp.
    + split; [discriminate |]. intros Hall. exfalso.
      assert (forallb (fun p => includes_value
                                  (parsePermissions (permissions u)) (JStr p))
                      required = true) as A'.
      { apply forallb_forall. intros p Hp. apply includes_value_string.
        rewrite List.Forall_forall in Hall. apply Hall, Hp. }
      congruence.
  - intros Hfalsy Hne. rewrite (parsePermissions_falsy _ Hfalsy).
    destruct required as [| p required]; [contradiction |]. reflexivity.
Qed.
End Middleware.

(** ** Round trips through the routes *)

Section RoundTrips.
Context `{Env}.

(** A login that passes every gate. *)
Lemma login_succeeds users now email_ password_ u rest :
  well_formed email_ password_ u ->
  filter (fun u => email u = email_) users = u :: rest ->
  0 < id u ->
  is_active u = true ->
  unlocked u now ->
  comparePassword password_ (password u) = true ->
  login users now email_ password_
  = (reply 200
       (LoginSuccessful "Login successful"
          (jwt_sign (id u) (Some (role u)) None (now / 1000)
             JWT_SECRET JWT_EXPIRES_IN)
          (jwt_sign (id u) None (Some "refresh") (now / 1000)
             JWT_SECRET REFRESH_TOKEN_EXPIRES_IN)
          {| data_id := id u; data_email := email u;
             data_full_name := full_name u; data_role := role u;
             data_permissions := parsePermissions (permissions u) |}),
     (if 5 <=? failed_login_attempts u
      then [Sql (ResetFailedAttempts (id u))] else [])
     ++ [BcryptCompare password_ (password u);
         Sql (RecordSuccessfulLogin (id u) now)]
     ++ [Sql (SetRefreshToken (id u)
                (Some (jwt_sign (id u) None (Some "refresh") (now / 1000)
                         JWT_SECRET REFRESH_TOKEN_EXPIRES_IN)))]).
Proof.
  intros Hwf Hsel Hid Hact Hun Hright.
  rewrite (login_found _ _ _ _ _ _ Hwf Hsel), Hact.
  rewrite (lockout_gate_unlocked _ _ Hun). simpl. rewrite Hright. simpl.
  unfold generateToken, generateRefreshToken.
  apply validateUserId_pos in Hid. rewrite Hid. simpl.
  destruct Hwf as (_ & _ & _ & Hrole). apply String.eqb_neq in Hrole.
  rewrite Hrole. rewrite <- !app_assoc. reflexivity.
Qed.

(** The table after a login that passes every gate: the pointer is written
    last. *)
Lemma after_login_succeeds users now email_ password_ u rest :
  well_formed email_ password_ u ->
  filter (fun u => email u = email_) users = u :: rest ->
  0 < id u ->
  is_active u = true ->
  unlocked u now ->
  comparePassword password_ (password u) = true ->
  exists log,
    after users now (Login email_ password_)
    = exec_update
        (SetRefreshToken (id u)
           (Some (jwt_sign (id u) None (Some "refresh") (now / 1000)
                    JWT_SECRET REFRESH_TOKEN_EXPIRES_IN)))
        (exec_update (RecordSuccessfulLogin (id u) now) (replay log users)).
Proof.
  intros Hwf Hsel Hid Hact Hun Hright. unfold after, handle.
  rewrite (login_succeeds _ _ _ _ _ _ Hwf Hsel Hid Hact Hun Hright).
  simpl snd. exists (if 5 <=? failed_login_attempts u
                     then [Sql (ResetFailedAttempts (id u))] else []).
  rewrite !replay_app. reflexivity.
Qed.

Lemma filter_none (P : user -> Prop) `{!forall u, Decision (P u)} users :
  (forall x, In x users -> ~ P x) -> filter P users = [].
Proof.
  induction users as [| x users IH]; intros Hnone; [reflexivity |].
  rewrite filter_cons.
  destruct (decide (P x)) as [Y | _].
  - exfalso. apply (Hnone x); [left; reflexivity | exact Y].
  - apply IH. intros y Hy. apply Hnone. right. exact Hy.
Qed.

Lemma filter_same (P Q : user -> Prop) `{!forall u, Decision (P u)}
    `{!forall u, Decision (Q u)} users :
  (forall x, In x users -> (P x <-> Q x)) -> filter P users = filter Q users.
Proof.
  induction users as [| x users IH]; intros Hsame; [reflexivity |].
  rewrite !filter_cons.
  assert (P x <-> Q x) as Hx by (apply Hsame; left; reflexivity).
  rewrite IH by (intros y Hy; apply Hsame; right; exact Hy).
  destruct (decide (P x)), (decide (Q x)); tauto.
Qed.

(** With [id] a key, an account has one row. *)
Lemma rows_unique users u :
  NoDup (map id users) -> In u users -> rows (id u) users = [u].
Proof.
  unfold rows. induction users as [| x users IH]; intros Hnd Hin;
    [destruct Hin |].
  simpl in Hnd. apply NoDup_cons in Hnd as [Hx Hnd].
  rewrite filter_cons. destruct Hin as [-> | Hin].
  - destruct (decide (id u = id u)) as [_ | N]; [| contradiction].
    f_equal. apply filter_none. intros y Hy E. apply Hx.
    rewrite <- E. apply list_elem_of_In, in_map, Hy.
  - destruct (decide (id x = id u)) as [E | _]; [| apply IH; assumption].
    exfalso. apply Hx. rewrite E. apply list_elem_of_In, in_map, Hin.
Qed.

(** A refresh presenting the current pointer of a row that has a role,
    before the token expires. *)
Lemma refresh_current_pointer users uid issued now T u rest :
  generateRefreshToken uid issued = Some T ->
  filter (fun u => id u = uid /\ refresh_token u = Some T) users = u :: rest ->
  role u <> EmptyString ->
  now / 1000 < issued / 1000 + REFRESH_TOKEN_EXPIRES_IN ->
  refresh users now T
  = (reply 200
       (TokenRefreshed "Token refreshed successfully"
          (jwt_sign uid (Some (role u)) None (now / 1000)
             JWT_SECRET JWT_EXPIRES_IN)
          (jwt_sign uid None (Some "refresh") (now / 1000)
             JWT_SECRET REFRESH_TOKEN_EXPIRES_IN)),
     [Sql (SetRefreshToken uid
             (Some (jwt_sign uid None (Some "refresh") (now / 1000)
                      JWT_SECRET REFRESH_TOKEN_EXPIRES_IN)))]).
Proof.
  intros Hgen Hsel Hrole Hexp.
  assert (validateUserId uid = true) as Hvalid.
  { unfold generateRefreshToken in Hgen.
    destruct (validateUserId uid); [reflexivity | discriminate Hgen]. }
  apply generateRefreshToken_Some in Hgen as ->.
  pose proof (selected_row _ _ _ _ Hsel) as [_ [Hid _]].
  unfold refresh, jwt_sign in *. simpl token_missing. cbv iota.
  unfold verifyRefreshToken, jwt_verify. rewrite String.eqb_refl.
  cbn [exp].
  assert ((issued / 1000 + REFRESH_TOKEN_EXPIRES_IN <=? now / 1000) = false)
    as -> by (apply Z.leb_gt; lia).
  cbn [claim_type userId]. rewrite bool_decide_eq_true_2 by reflexivity.
  cbn [negb]. rewrite Hvalid. cbn [negb userId].
  assert ((uid =? 0) = false) as Hnz.
  { apply validateUserId_pos in Hvalid. apply Z.eqb_neq. lia. }
  rewrite Hnz, Hsel, Hid, Hnz.
  apply String.eqb_neq in Hrole. rewrite Hrole. cbn [orb].
  unfold generateToken, generateRefreshToken. rewrite Hvalid, Hrole.
  reflexivity.
Qed.

Lemma Forall2_filter (R : user -> user -> Prop) (P : user -> Prop)
    `{!forall u, Decision (P u)} l l' :
  (forall a b, R a b -> (P a <-> P b)) ->
  Forall2 R l l' -> Forall2 R (filter P l) (filter P l').
Proof.
  intros HP Hall. induction Hall as [| a b l l' Hab _ IH]; [constructor |].
  rewrite !filter_cons. pose proof (HP a b Hab).
  destruct (decide (P a)), (decide (P b)); try tauto.
  constructor; assumption.
Qed.

Lemma same_account_refl a : same_account a a.
Proof. repeat split. Qed.

Lemma exec_update_same_account upd users :
  Forall2 same_account users (exec_update upd users).
Proof.
  unfold exec_update. induction users as [| row users IH]; simpl;
    constructor; [| exact IH].
  destruct (id row =? update_target upd);
    [apply update_row_same_account | apply same_account_refl].
Qed.

Lemma Forall2_same_account_trans l1 l2 l3 :
  Forall2 same_account l1 l2 -> Forall2 same_account l2 l3 ->
  Forall2 same_account l1 l3.
Proof.
  intros H12. revert l3. induction H12 as [| a b l1 l2 Hab _ IH];
    intros l3 H23; inversion H23; subst; constructor.
  - eapply same_account_trans; eassumption.
  - apply IH. assumption.
Qed.

Lemma Forall2_same_account_refl l : Forall2 same_account l l.
Proof. induction l; constructor; [apply same_account_refl | assumption]. Qed.

Lemma replay_same_account log : forall users,
  Forall2 same_account users (replay log users).
Proof.
  induction log as [| [upd | p h] log IH]; intros users; simpl.
  - apply Forall2_same_account_refl.
  - eapply Forall2_same_account_trans;
      [apply exec_update_same_account | apply IH].
  - apply IH.
Qed.

(** X20.  No authentication route inserts, deletes or reorders rows, and
    none writes the identity columns: after any requests the table has, row
    for row, the same [id], [email], [full_name], [role], [permissions] and
    [is_active]. *)
Theorem routes_keep_identity users requests :
  Forall2 same_account users (run users requests).
Proof.
  revert users. induction requests as [| [t r] requests IH]; intros users.
  - apply Forall2_same_account_refl.
  - rewrite run_cons. eapply Forall2_same_account_trans; [| apply IH].
    unfold after. apply replay_same_account.
Qed.

Lemma rows_same_account uid l l' :
  Forall2 same_account l l' ->
  Forall2 same_account (rows uid l) (rows uid l').
Proof.
  unfold rows. apply Forall2_filter.
  intros a b (E & _). rewrite E. reflexivity.
Qed.

(** X17.  With [id] a key of the table: the refresh token a successful
    login returns is accepted by the refresh route at any time before it
    expires, which answers 200 with a new pair made for the same account
    and role and stores the new refresh token as the pointer. *)
Theorem login_then_refresh users t1 email_ password_ u rest t2 :
  NoDup (map id users) ->
  well_formed email_ password_ u ->
  filter (fun u => email u = email_) users = u :: rest ->
  0 < id u ->
  is_active u = true ->
  unlocked u t1 ->
  comparePassword password_ (password u) = true ->
  t2 / 1000 < t1 / 1000 + REFRESH_TOKEN_EXPIRES_IN ->
  let issued :=
    jwt_sign (id u) None (Some "refresh") (t1 / 1000)
      JWT_SECRET REFRESH_TOKEN_EXPIRES_IN in
  let rotated :=
    jwt_sign (id u) None (Some "refresh") (t2 / 1000)
      JWT_SECRET REFRESH_TOKEN_EXPIRES_IN in
  let users1 := after users t1 (Login email_ password_) in
  (exists accessToken data,
      fst (login users t1 email_ password_)
      = reply 200 (LoginSuccessful "Login successful" accessToken issued data))
  /\ fst (refresh users1 t2 issued)
     = reply 200
         (TokenRefreshed "Token refreshed successfully"
            (jwt_sign (id u) (Some (role u)) None (t2 / 1000)
               JWT_SECRET JWT_EXPIRES_IN)
            rotated)
  /\ pointers (id u) (after users1 t2 (Refresh issued)) = [Some rotated].
Proof.
  intros Hkey Hwf Hsel Hid Hact Hun Hright Hexp issued rotated users1.
  split.
  { rewrite (login_succeeds _ _ _ _ _ _ Hwf Hsel Hid Hact Hun Hright).
    eexists. eexists. reflexivity. }
  destruct (after_login_succeeds _ _ _ _ _ _ Hwf Hsel Hid Hact Hun Hright)
    as (log & Hafter).
  fold users1 in Hafter. fold issued in Hafter.
  pose proof (selected_row _ _ _ _ Hsel) as [Hin _].
  (* the one row of the account, after the login *)
  assert (exists u1, rows (id u) users1 = [u1] /\ same_account u u1
                     /\ refresh_token u1 = Some issued)
    as (u1 & Hrows & Hsame & Hptr).
  { pose proof (rows_same_account (id u) users users1) as Hrel.
    rewrite (rows_unique _ _ Hkey Hin) in Hrel.
    specialize (Hrel ltac:(apply (replay_same_account
                                    (snd (handle users t1
                                            (Login email_ password_)))))).
    inversion Hrel as [| a u1 l l' Hab Hnil Ea Eb]; subst.
    inversion Hnil; subst.
    exists u1. split; [reflexivity |]. split; [assumption |].
    assert (pointers (id u) users1 = [Some issued]) as Hp.
    { rewrite Hafter, pointers_exec_set.
      rewrite rows_length_exec_update, rows_length_replay.
      rewrite (rows_unique _ _ Hkey Hin). reflexivity. }
    unfold pointers in Hp. rewrite <- Eb in Hp. simpl in Hp. congruence. }
  assert (filter (fun r => id r = id u /\ refresh_token r = Some issued) users1
          = [u1]) as Hcur.
  { rewrite <- Hrows. unfold rows. apply filter_same. intros x Hx.
    split; [tauto |]. intros Hidx. split; [assumption |].
    assert (In x (rows (id u) users1)) as Hxr by (apply rows_In; auto).
    rewrite Hrows in Hxr. destruct Hxr as [<- | []]. assumption. }
  assert (generateRefreshToken (id u) t1 = Some issued) as Hgen.
  { unfold generateRefreshToken.
    apply validateUserId_pos in Hid. rewrite Hid. reflexivity. }
  assert (role u1 <> EmptyString) as Hrole1.
  { destruct Hsame as (_ & _ & _ & <- & _). apply Hwf. }
  pose proof (refresh_current_pointer _ _ _ _ _ _ _ Hgen Hcur Hrole1 Hexp)
    as Hrefresh.
  destruct Hsame as (_ & _ & _ & Erole & _). rewrite <- Erole in Hrefresh.
  split; [rewrite Hrefresh; reflexivity |].
  unfold after, handle. rewrite Hrefresh. simpl.
  rewrite pointers_exec_set, Hrows. reflexivity.
Qed.

(** X18.  The access token a successful login returns passes
    [authenticateToken] for that account at every time before its expiry,
    whatever requests are served in between. *)
Theorem login_then_authenticate
    users t1 email_ password_ u rest between t2 :
  well_formed email_ password_ u ->
  filter (fun u => email u = email_) users = u :: rest ->
  0 < id u ->
  is_active u = true ->
  unlocked u t1 ->
  comparePassword password_ (password u) = true ->
  t2 / 1000 < t1 / 1000 + JWT_EXPIRES_IN ->
  let accessToken :=
    jwt_sign (id u) (Some (role u)) None (t1 / 1000)
      JWT_SECRET JWT_EXPIRES_IN in
  (exists refreshToken data,
      fst (login users t1 email_ password_)
      = reply 200
          (LoginSuccessful "Login successful" accessToken refreshToken data))
  /\ exists ru,
       authenticateToken
         (run (after users t1 (Login email_ password_)) between)
         t2 accessToken = inr ru
       /\ req_id ru = id u.
Proof.
  intros Hwf Hsel Hid Hact Hun Hright Hexp accessToken. split.
  { rewrite (login_succeeds _ _ _ _ _ _ Hwf Hsel Hid Hact Hun Hright).
    eexists. eexists. reflexivity. }
  pose proof (selected_row _ _ _ _ Hsel) as [Hin _].
  destruct (filter (fun r => id r = id u /\ is_active r = true) users)
    as [| a rest0] eqn:Hact0.
  { exfalso.
    assert (u ∈ filter (fun r => id r = id u /\ is_active r = true) users)
      as Hu by (apply list_elem_of_filter; split;
                [auto | apply list_elem_of_In, Hin]).
    rewrite Hact0 in Hu. inversion Hu. }
  destruct (select_active_run (id u)
              ((t1, Login email_ password_) :: between) _ _ _ Hact0)
    as (a' & rest' & Hsel' & _).
  rewrite run_cons in Hsel'. simpl fst in Hsel'. simpl snd in Hsel'.
  assert (exists ru,
             authenticateToken
               (run (after users t1 (Login email_ password_)) between)
               t2 accessToken = inr ru) as [ru Hru].
  { apply authenticateToken_ok. simpl. repeat split; eauto. }
  exists ru. split; [exact Hru |].
  apply authenticateToken_user in Hru as (a2 & rest2 & Hsel2 & ->).
  apply selected_row in Hsel2 as [_ [Hid2 _]]. exact Hid2.
Qed.

(** X19.  The refresh route does not look at [is_active] or at the lockout
    columns.  For an account that has no active row, a refresh presenting
    its current, unexpired pointer is still answered 200 with a new pair --
    whose access token [authenticateToken] then refuses, 401
    USER_NOT_FOUND. *)
Theorem refresh_ignores_suspension users uid issued now T u rest :
  generateRefreshToken uid issued = Some T ->
  filter (fun u => id u = uid /\ refresh_token u = Some T) users = u :: rest ->
  role u <> EmptyString ->
  now / 1000 < issued / 1000 + REFRESH_TOKEN_EXPIRES_IN ->
  filter (fun u => id u = uid /\ is_active u = true) users = [] ->
  0 < JWT_EXPIRES_IN ->
  let accessToken :=
    jwt_sign uid (Some (role u)) None (now / 1000) JWT_SECRET JWT_EXPIRES_IN in
  fst (refresh users now T)
  = reply 200
      (TokenRefreshed "Token refreshed successfully" accessToken
         (jwt_sign uid None (Some "refresh") (now / 1000)
            JWT_SECRET REFRESH_TOKEN_EXPIRES_IN))
  /\ authenticateToken (after users now (Refresh T)) now accessToken
     = inl (reply 401 (Failure "User account not found or inactive"
                               "USER_NOT_FOUND")).
Proof.
  intros Hgen Hsel Hrole Hexp Hsusp Hlife accessToken.
  pose proof (refresh_current_pointer _ _ _ _ _ _ _ Hgen Hsel Hrole Hexp)
    as Hrefresh.
  split; [rewrite Hrefresh; reflexivity |].
  assert (0 < uid) as Hpos.
  { apply validateUserId_pos. unfold generateRefreshToken in Hgen.
    destruct (validateUserId uid); [reflexivity | discriminate Hgen]. }
  unfold after, handle. rewrite Hrefresh. simpl replay.
  unfold authenticateToken, accessToken, jwt_sign, jwt_verify, sanitizeParam.
  simpl token_missing. cbv iota. rewrite String.eqb_refl. cbn [exp userId].
  assert ((now / 1000 + JWT_EXPIRES_IN <=? now / 1000) = false) as ->
    by (apply Z.leb_gt; lia).
  cbn [exp userId].
  assert ((negb (now / 1000 + JWT_EXPIRES_IN =? 0)
           && ((now / 1000 + JWT_EXPIRES_IN) * 1000 <=? now)) = false) as ->.
  { apply andb_false_iff. right. apply Z.leb_gt, not_expired_ms. lia. }
  apply validateUserId_pos in Hpos as Hvalid. rewrite Hvalid. cbn [negb].
  assert ((uid =? 0) = false) as -> by (apply Z.eqb_neq; lia).
  rewrite select_active_exec_update, Hsusp. reflexivity.
Qed.
End RoundTrips.

(** ** The lockout, continued *)

Section LockoutExpiry.
Context `{Env}.

Lemma ceil_div_upper x k : x <= 1000 * k -> ceil_div x 1000 <= k.
Proof.
  intros Hx. unfold ceil_div.
  assert (- k <= (- x) / 1000); [| lia].
  apply Z.div_le_lower_bound; lia.
Qed.

Lemma rows_length_run uid requests : forall users,
  length (rows uid (run users requests)) = length (rows uid users).
Proof.
  induction requests as [| [t r] requests IH]; intros users; [reflexivity |].
  rewrite run_cons, IH. unfold after. apply rows_length_replay.
Qed.

(** X21.  The lockout is temporary.  After five failed logins from a
    counter of 0, a login with the right secret made [lockoutTime] or more
    after the stored time of the fifth failure is answered 200, and leaves
    the counter at 0. *)
Theorem lockout_expires users email_ u rest earlier t5 p5 now password_ :
  well_formed email_ password_ u ->
  filter (fun u => email u = email_) users = u :: rest ->
  0 < id u ->
  is_active u = true ->
  failed_login_attempts u = 0 ->
  length earlier = 4%nat ->
  Forall (wrong_secret u) (earlier ++ [(t5, p5)]) ->
  lockoutTime <= now - sql_now t5 ->
  comparePassword password_ (password u) = true ->
  let locked := run users (login_attempts email_ (earlier ++ [(t5, p5)])) in
  status (fst (login locked now email_ password_)) = 200
  /\ counters (id u) (after locked now (Login email_ password_))
     = repeat 0 (length (rows (id u) users))
  /\ (0 < length (rows (id u) users))%nat.
Proof.
  intros (He & Hp & Hid0 & Hrole) Hsel Hid Hact Hzero Hlen Hwrong Hwait
         Hright locked.
  destruct (wrong_attempts_accumulate email_ (earlier ++ [(t5, p5)])
              users u rest He Hid0 Hrole Hact Hsel)
    as (u' & rest' & S1 & S2 & S3 & S4 & S5 & S6 & S7).
  { rewrite length_app, Hlen, Hzero. simpl. lia. }
  { exact Hwrong. }
  fold locked in S1.
  specialize (S7 earlier t5 p5 eq_refl).
  assert (well_formed email_ password_ u') as Hwf'
    by (unfold well_formed; rewrite S2, S3; auto).
  assert (unlocked u' now) as Hun'
    by (right; rewrite S7; simpl; exact Hwait).
  assert (0 < id u') as Hid' by (rewrite S2; exact Hid).
  assert (comparePassword password_ (password u') = true) as Hright'
    by (rewrite S5; exact Hright).
  split; [| split].
  - rewrite (login_succeeds _ _ _ _ _ _ Hwf' S1 Hid' S4 Hun' Hright').
    reflexivity.
  - destruct (after_login_succeeds _ _ _ _ _ _ Hwf' S1 Hid' S4 Hun' Hright')
      as (log & ->).
    unfold counters. rewrite !rows_exec_update. simpl update_target.
    rewrite S2, !Z.eqb_refl, !map_map. simpl.
    rewrite map_const_repeat, rows_length_replay. f_equal.
    apply rows_length_run.
  - apply selected_row in Hsel as [Hin _].
    assert (In u (rows (id u) users)) as Hrow
      by (apply rows_In; split; [assumption | reflexivity]).
    destruct (rows (id u) users); [destruct Hrow | simpl; lia].
Qed.

(** X22.  The [retryAfter] of ACCOUNT_LOCKED is honest: it is at least one
    second, at most 900 when the last failure is not in the future, and a
    login made [retryAfter] seconds later, or any time after that, is no
    longer answered 429. *)
Theorem lockout_retryAfter_suffices users now email_ password_ u rest :
  well_formed email_ password_ u ->
  filter (fun u => email u = email_) users = u :: rest ->
  is_active u = true ->
  5 <= failed_login_attempts u ->
  now - getTime (last_failed_login u) < lockoutTime ->
  let retryAfter :=
    ceil_div (lockoutTime - (now - getTime (last_failed_login u))) 1000 in
  login users now email_ password_
  = (reply 429
       (FailureRetry
          "Account temporarily locked due to too many failed attempts"
          "ACCOUNT_LOCKED" retryAfter), [])
  /\ 1 <= retryAfter
  /\ (getTime (last_failed_login u) <= now -> retryAfter <= 900)
  /\ forall later,
       now + 1000 * retryAfter <= later ->
       status (fst (login users later email_ password_)) <> 429.
Proof.
  intros Hwf Hsel Hact Hc Hl retryAfter.
  split; [apply (login_locked _ _ _ _ _ _ Hwf Hsel Hact Hc Hl) |].
  split; [pose proof (ceil_div_pos
                        (lockoutTime - (now - getTime (last_failed_login u)))
                        ltac:(lia)); unfold retryAfter; lia |].
  split.
  - intros Hpast. apply ceil_div_upper. unfold lockoutTime. lia.
  - intros later Hlater.
    pose proof (ceil_div_covers
                  (lockoutTime - (now - getTime (last_failed_login u))))
      as Hcover.
    fold retryAfter in Hcover.
    rewrite (login_found _ later _ _ _ _ Hwf Hsel), Hact.
    rewrite lockout_gate_unlocked by (right; lia).
    simpl. destruct (negb (comparePassword password_ (password u)));
      [discriminate |].
    destruct (generateToken (id u) (role u) later),
             (generateRefreshToken (id u) later); discriminate.
Qed.
End LockoutExpiry.

(** ** Changing the password *)

Section ChangePassword.
Context `{Env}.
Variable hashPassword : string -> string.

Lemma set_password_same_but_password uid hashed users :
  Forall2 same_but_password users (set_password uid hashed users).
Proof.
  unfold set_password. induction users as [| row users IH]; simpl;
    constructor; [| exact IH].
  destruct (id row =? uid); repeat split.
Qed.

Lemma Forall2_same_but_password_refl users :
  Forall2 same_but_password users users.
Proof. induction users; constructor; [repeat split | assumption]. Qed.

(** [refresh] does not read the [password] column. *)
Lemma refresh_same_but_password users users' now T :
  Forall2 same_but_password users users' ->
  refresh users' now T = refresh users now T.
Proof.
  intros Hrel. unfold refresh.
  destruct (token_missing T); [reflexivity |].
  destruct (verifyRefreshToken T now) as [decoded |]; [| reflexivity].
  destruct (userId decoded =? 0); [reflexivity |].
  pose proof (Forall2_filter same_but_password
                (fun u => id u = userId decoded /\ refresh_token u = Some T)
                users users') as Hsel.
  specialize (Hsel ltac:(intros a b (E1 & _ & _ & _ & _ & _ & _ & _ & _ & E2);
                         rewrite E1, E2; reflexivity) Hrel).
  inversion Hsel as [| a b l l' Hab _ Ea Eb]; [reflexivity |].
  destruct Hab as (E1 & _ & _ & E4 & _). rewrite E1, E4. reflexivity.
Qed.

(** [authenticateToken] does not read it either. *)
Lemma authenticateToken_same_but_password users users' now bearer :
  Forall2 same_but_password users users' ->
  authenticateToken users' now bearer = authenticateToken users now bearer.
Proof.
  intros Hrel. unfold authenticateToken.
  destruct (token_missing bearer); [reflexivity |].
  destruct (jwt_verify bearer JWT_SECRET now) as [[] | decoded];
    try reflexivity.
  destruct (_ && _); [reflexivity |].
  destruct (negb (validateUserId _)); [reflexivity |].
  destruct (sanitizeParam (userId decoded) =? 0); [reflexivity |].
  pose proof (Forall2_filter same_but_password
                (fun u => id u = sanitizeParam (userId decoded)
                          /\ is_active u = true)
                users users') as Hsel.
  specialize (Hsel ltac:(intros a b (E1 & _ & _ & _ & _ & E2 & _);
                         rewrite E1, E2; reflexivity) Hrel).
  inversion Hsel as [| a b l l' Hab _ Ea Eb]; [reflexivity |].
  destruct Hab as (E1 & E2 & E3 & E4 & E5 & E6 & _ & _ & E9 & _).
  rewrite E1, E2, E3, E4, E5, E6, E9. reflexivity.
Qed.

(** X23.  Changing the password ends no session.  Whatever the request,
    the table after it differs from the table before in [password] columns
    at most, and the refresh route and [authenticateToken] answer every
    token afterwards as they would have before: outstanding refresh and
    access tokens stay good, and a wrong current password is not counted as
    a failed login. *)
Theorem change_password_keeps_sessions
    users now bearer currentPassword newPassword :
  let users' :=
    snd (change_password hashPassword users now bearer
           currentPassword newPassword) in
  Forall2 same_but_password users users'
  /\ (forall t T, refresh users' t T = refresh users t T)
  /\ (forall t token, authenticateToken users' t token
                      = authenticateToken users t token).
Proof.
  intros users'.
  assert (Forall2 same_but_password users users') as Hrel.
  { unfold users', change_password.
    destruct (authenticateToken users now bearer) as [? | ru];
      [apply Forall2_same_but_password_refl |].
    destruct (_ || _); [apply Forall2_same_but_password_refl |].
    destruct (_ <? _)%nat; [apply Forall2_same_but_password_refl |].
    destruct (filter _ users) as [| user ?];
      [apply Forall2_same_but_password_refl |].
    destruct (negb _); [apply Forall2_same_but_password_refl |].
    apply set_password_same_but_password. }
  split; [exact Hrel |]. split; intros.
  - apply refresh_same_but_password, Hrel.
  - apply authenticateToken_same_but_password, Hrel.
Qed.

Lemma select_email_set_password email_ uid hashed users :
  filter (fun u => email u = email_) (set_password uid hashed users)
  = set_password uid hashed (filter (fun u => email u = email_) users).
Proof.
  unfold set_password. induction users as [| row users IH]; [reflexivity |].
  simpl. rewrite !filter_cons.
  destruct (id row =? uid) eqn:E; simpl;
    destruct (decide (email row = email_)); simpl; rewrite ?E, IH;
    reflexivity.
Qed.

(** X24.  After a password change that was answered 200, for a [bcrypt]
    whose hash of a password compares equal to that password: a login of
    the account with the new password is answered 200, and a login with
    the old one, if it does not match the new hash, 401
    INVALID_CREDENTIALS. *)
Theorem change_password_then_login
    users now key payload ru currentPassword newPassword users'
    email_ u rest later :
  authenticateToken users now (Jwt key payload) = inr ru ->
  change_password hashPassword users now (Jwt key payload)
    currentPassword newPassword = (PasswordChanged, users') ->
  email_ <> EmptyString ->
  filter (fun u => email u = email_) users = u :: rest ->
  id u = req_id ru ->
  role u <> EmptyString ->
  is_active u = true ->
  unlocked u later ->
  comparePassword newPassword (hashPassword newPassword) = true ->
  status (fst (login users' later email_ newPassword)) = 200
  /\ (comparePassword currentPassword (hashPassword newPassword) = false ->
      fst (login users' later email_ currentPassword)
      = reply 401 (Failure "Invalid credentials" "INVALID_CREDENTIALS")).
Proof.
  intros Hauth Hchange He Hsel Hid Hrole Hact Hun Hround.
  assert (0 < id u) as Hpos.
  { assert (exists ru0, authenticateToken users now (Jwt key payload)
                        = inr ru0) as Hok by eauto.
    apply authenticateToken_ok in Hok as (_ & _ & Hpos & _).
    apply authenticateToken_user in Hauth as (a & rest0 & Ha & ->).
    apply selected_row in Ha as [_ [Ha _]]. simpl in Hid. lia. }
  unfold change_password in Hchange. rewrite Hauth in Hchange.
  destruct (String.eqb currentPassword EmptyString) eqn:Ec;
    [discriminate Hchange |].
  destruct (String.eqb newPassword EmptyString) eqn:En;
    [discriminate Hchange |].
  simpl in Hchange.
  destruct (_ <? _)%nat; [discriminate Hchange |].
  destruct (filter _ users) as [| user ?]; [discriminate Hchange |].
  destruct (negb _); [discriminate Hchange |].
  injection Hchange as <-.
  apply String.eqb_neq in Ec, En.
  set (u' := {| id := id u; email := email u; full_name := full_name u;
                password := hashPassword newPassword; role := role u;
                permissions := permissions u; is_active := is_active u;
                failed_login_attempts := failed_login_attempts u;
                last_failed_login := last_failed_login u;
                last_login := last_login u;
                refresh_token := refresh_token u |}).
  assert (filter (fun u => email u = email_)
                 (set_password (req_id ru) (hashPassword newPassword) users)
          = u' :: set_password (req_id ru) (hashPassword newPassword) rest)
    as Hsel'.
  { rewrite select_email_set_password, Hsel. unfold set_password at 1.
    simpl. rewrite Hid, Z.eqb_refl. rewrite <- Hid. reflexivity. }
  assert (forall secret, secret <> EmptyString ->
                         well_formed email_ secret u') as Hwf'
    by (intros; unfold well_formed; simpl; repeat split; auto; lia).
  split.
  - rewrite (login_succeeds _ later email_ newPassword u' _
               (Hwf' _ En) Hsel' Hpos Hact Hun Hround).
    reflexivity.
  - intros Hold.
    rewrite (login_found _ later email_ currentPassword u' _
               (Hwf' _ Ec) Hsel').
    simpl is_active. rewrite Hact. simpl negb. cbv iota.
    rewrite (lockout_gate_unlocked u' later Hun).
    cbv zeta. simpl password. rewrite Hold. reflexivity.
Qed.
End ChangePassword.

(** ** lib/server-security *)

(** X25.  The score of [checkPasswordStrength] counts the criteria met and
    the feedback lists the others, so together they are five; a password is
    strong exactly when at most one criterion fails -- and that one may be
    the length: lower case, upper case, digit and special character make a
    password strong whatever its length. *)
Theorem checkPasswordStrength_score password_ :
  let result := checkPasswordStrength password_ in
  score result + Z.of_nat (length (feedback result)) = 5
  /\ (strong result = true <-> (length (feedback result) <= 1)%nat)
  /\ (test_class is_lower password_ = true ->
      test_class is_upper password_ = true ->
      test_class is_digit password_ = true ->
      test_class (fun c => negb (is_alnum c)) password_ = true ->
      strong result = true).
Proof.
  unfold checkPasswordStrength, criterion.
  destruct (8 <=? String.length password_)%nat,
           (test_class is_lower password_),
           (test_class is_upper password_),
           (test_class is_digit password_),
           (test_class (fun c => negb (is_alnum c)) password_);
    simpl; repeat split; intros; try reflexivity; try discriminate; try lia.
Qed.

Lemma remove_angles_chars s c :
  includes_char c (remove_angles s) = true ->
  includes_char c s = true
  /\ Ascii.eqb c "<"%char = false /\ Ascii.eqb c ">"%char = false.
Proof.
  induction s as [| d s IH]; simpl; [discriminate |].
  destruct (Ascii.eqb d "<"%char || Ascii.eqb d ">"%char) eqn:A.
  - intros Hc. destruct (IH Hc) as (-> & ? & ?).
    rewrite orb_true_r. auto.
  - simpl. intros [E | Hc]%orb_true_iff.
    + apply Ascii.eqb_eq in E. subst d. rewrite Ascii.eqb_refl.
      apply orb_false_iff in A. tauto.
    + destruct (IH Hc) as (-> & ? & ?). rewrite orb_true_r. auto.
Qed.

Lemma remove_matches_chars match_at c : forall s skip,
  includes_char c (remove_matches match_at skip s) = true ->
  includes_char c s = true.
Proof.
  induction s as [| d s IH]; intros skip; simpl; [discriminate |].
  destruct skip as [| skip].
  - destruct (match_at (String d s)) as [[| n] |]; simpl.
    + intros [-> | Hc]%orb_true_iff; [reflexivity |].
      rewrite (IH _ Hc). apply orb_true_r.
    + intros Hc. rewrite (IH _ Hc). apply orb_true_r.
    + intros [-> | Hc]%orb_true_iff; [reflexivity |].
      rewrite (IH _ Hc). apply orb_true_r.
  - intros Hc. rewrite (IH _ Hc). apply orb_true_r.
Qed.

Lemma trim_left_chars s c :
  includes_char c (trim_left s) = true -> includes_char c s = true.
Proof.
  induction s as [| d s IH]; simpl; [discriminate |].
  destruct (is_space d); [| exact (fun E => E)].
  intros Hc. rewrite (IH Hc). apply orb_true_r.
Qed.

Lemma trim_right_chars s c :
  includes_char c (trim_right s) = true -> includes_char c s = true.
Proof.
  induction s as [| d s IH]; simpl; [discriminate |].
  destruct (trim_right s) as [| e kept].
  - destruct (is_space d); simpl; [discriminate |].
    rewrite orb_false_r. intros ->. reflexivity.
  - simpl in *. intros [-> | Hc]%orb_true_iff; [reflexivity |].
    rewrite (IH Hc). apply orb_true_r.
Qed.

Lemma remove_angles_length s :
  (String.length (remove_angles s) <= String.length s)%nat.
Proof.
  induction s as [| d s IH]; simpl; [lia |].
  destruct (_ || _); simpl; lia.
Qed.

Lemma remove_matches_length match_at : forall s skip,
  (String.length (remove_matches match_at skip s) <= String.length s)%nat.
Proof.
  induction s as [| d s IH]; intros skip; simpl; [lia |].
  destruct skip as [| skip].
  - destruct (match_at (String d s)) as [[| n] |]; simpl;
      try (specialize (IH O); lia).
    specialize (IH n). lia.
  - specialize (IH skip). lia.
Qed.

Lemma trim_left_length s :
  (String.length (trim_left s) <= String.length s)%nat.
Proof.
  induction s as [| d s IH]; simpl; [lia |].
  destruct (is_space d); simpl; lia.
Qed.

Lemma trim_right_length s :
  (String.length (trim_right s) <= String.length s)%nat.
Proof.
  induction s as [| d s IH]; simpl; [lia |].
  destruct (trim_right s); [destruct (is_space d) |]; simpl in *; lia.
Qed.

(** X26.  [sanitizeInput] only deletes: its result is never longer than
    the input and contains neither [<] nor [>].  It is one pass, though: a
    [javascript:] that the deletions put together stays in the result. *)
Theorem sanitizeInput_removes_angles :
  (forall input,
      includes_char "<"%char (sanitizeInput input) = false
      /\ includes_char ">"%char (sanitizeInput input) = false
      /\ (String.length (sanitizeInput input) <= String.length input)%nat)
  /\ exists input, contains "javascript:" (sanitizeInput input) = true.
Proof.
  split.
  - intros input.
    assert (forall c, includes_char c (sanitizeInput input) = true ->
                      Ascii.eqb c "<"%char = false
                      /\ Ascii.eqb c ">"%char = false) as Hchars.
    { intros c Hc. unfold sanitizeInput, trim in Hc.
      apply trim_right_chars, trim_left_chars in Hc.
      apply remove_matches_chars, remove_matches_chars in Hc.
      apply remove_angles_chars in Hc. tauto. }
    split; [| split].
    + destruct (includes_char "<"%char (sanitizeInput input)) eqn:E;
        [| reflexivity].
      destruct (Hchars _ E) as [N _]. discriminate N.
    + destruct (includes_char ">"%char (sanitizeInput input)) eqn:E;
        [| reflexivity].
      destruct (Hchars _ E) as [_ N]. discriminate N.
    + unfold sanitizeInput, trim.
      pose proof (trim_right_length
                    (trim_left
                       (remove_matches match_handler 0
                          (remove_matches match_javascript 0
                             (remove_angles input))))).
      pose proof (trim_left_length
                    (remove_matches match_handler 0
                       (remove_matches match_javascript 0
                          (remove_angles input)))).
      pose proof (remove_matches_length match_handler
                    (remove_matches match_javascript 0 (remove_angles input))
                    0).
      pose proof (remove_matches_length match_javascript
                    (remove_angles input) 0).
      pose proof (remove_angles_length input). lia.
  - exists "javajavascript:script:alert(1)". reflexivity.
Qed.

(** ** The further properties at concrete inputs *)

Lemma user_permissions_are_a_floor_witness :
  hasPermission "content_manager" "certificates:view" = Return true
  /\ hasPermission "guest" "certificates:view" = Return true
  /\ hasPermission "constructor" "certificates:view" = TypeError.
Proof.
  split; [| split].
  - apply (user_permissions_are_a_floor "content_manager" "certificates:view").
    reflexivity.
  - apply (user_permissions_are_a_floor "guest" "certificates:view").
    reflexivity.
  - apply (user_permissions_are_a_floor "constructor" "certificates:view").
    reflexivity.
Defined.

Lemma canManageRole_iff_manageable_witness :
  getManageableRoles "community_manager" = Array ["user"; "user_support"]
  /\ canManageRole "community_manager" "user_support" = Return true
  /\ isValidRole "user_support" = true
  /\ canManageRole "__proto__" "user" = TypeError
  /\ getManageableRoles "__proto__" = Member "__proto__".
Proof.
  destruct (canManageRole_iff_manageable "community_manager" "user_support")
    as (_ & Hlisted & Hvalid).
  destruct Hlisted as (roles & Eroles & Ecan & _).
  { simpl. intuition discriminate. }
  assert (roles = ["user"; "user_support"]) as ->.
  { vm_compute in Eroles. congruence. }
  split; [exact Eroles |]. split; [exact Ecan |].
  split; [apply Hvalid; exact Ecan |].
  apply (canManageRole_iff_manageable "__proto__" "user").
  simpl. tauto.
Defined.

Lemma isValidPermission_iff_witness :
  isValidPermission "audit:view" = true.
Proof.
  apply (isValidPermission_iff "audit:view").
  exists "super_admin". split; [simpl; auto 10 | reflexivity].
Defined.

Lemma super_admin_lacks_two_witness :
  hasPermission "super_admin" "users:view_profile" = Return false.
Proof.
  apply (super_admin_lacks_two "users:view_profile");
    [reflexivity | right; reflexivity].
Defined.

Lemma userHasPermission_iff_witness :
  @userHasPermission sample_env "user" "courses:admin"
    (JArr [JStr "courses:admin"]) = Return true
  /\ @userHasPermission sample_env "toString" "courses:view" JNull
     = TypeError.
Proof.
  destruct (@userHasPermission_iff sample_env "user" "courses:admin"
              (JArr [JStr "courses:admin"])) as [_ Hrole].
  destruct Hrole as (answer & Eanswer & Hanswer).
  { simpl. intuition discriminate. }
  assert (answer = true) as ->.
  { apply Hanswer. right. left. reflexivity. }
  split; [exact Eanswer |].
  apply (@userHasPermission_iff sample_env "toString" "courses:view" JNull).
  simpl. tauto.
Defined.

Lemma all_override_grants_one_permission_witness :
  @userHasAllPermissions sample_env "user"
    ["courses:view"; "system:full_access"] (JArr [JStr "all"]) = Return true
  /\ @userHasAllPermissions sample_env "constructor" []
       (JArr [JStr "all"]) = TypeError.
Proof.
  destruct (@all_override_grants_one_permission sample_env "user"
              ["courses:view"; "system:full_access"]) as [_ Hrole].
  destruct Hrole as (answer & Eanswer & Hanswer).
  { simpl. intuition discriminate. }
  assert (answer = true) as ->.
  { apply Hanswer. constructor; [left; reflexivity |].
    constructor; [right; reflexivity | constructor]. }
  split; [exact Eanswer |].
  apply (@all_override_grants_one_permission sample_env "constructor" []).
  simpl. tauto.
Defined.

Lemma validatePermissionsForRole_partition_witness :
  validatePermissionsForRole "user" ["audit:view"; "courses:view"]
  = Return {| valid := ["courses:view"]; invalid := ["audit:view"];
              isValid := false |}
  /\ validatePermissionsForRole "constructor" ["courses:view"] = TypeError
  /\ validatePermissionsForRole "constructor" []
     = Return {| valid := []; invalid := []; isValid := true |}.
Proof.
  destruct (validatePermissionsForRole_partition "user"
              ["audit:view"; "courses:view"]) as [_ Hrole].
  destruct Hrole as (rolePermissions & Hhas & Evalidate & _).
  { simpl. intuition discriminate. }
  split; [| split].
  - assert (includes rolePermissions "audit:view" = false) as Haudit.
    { pose proof (Hhas "audit:view") as E.
      change (hasPermission "user" "audit:view") with (@Return bool false)
        in E.
      congruence. }
    assert (includes rolePermissions "courses:view" = true) as Hview.
    { pose proof (Hhas "courses:view") as E.
      change (hasPermission "user" "courses:view") with (@Return bool true)
        in E.
      congruence. }
    rewrite Evalidate. cbn [List.filter forallb negb].
    rewrite Haudit, Hview. reflexivity.
  - apply (validatePermissionsForRole_partition "constructor"
             ["courses:view"]).
    simpl. tauto.
  - apply (validatePermissionsForRole_partition "constructor" []).
    simpl. tauto.
Defined.

Lemma rateLimit_counts_window_witness :
  five_requests !! client = Some {| count := 5; resetTime := 60000 |}
  /\ snd (rateLimit 5 60000 client 5000 five_requests)
     = Some (reply 429 (FailureRetry "Too many requests"
                          "RATE_LIMIT_EXCEEDED" 55)).
Proof.
  destruct (rateLimit_counts_window 5 60000 client 0 [1000; 2000; 3000; 4000]
              ∅ (lookup_empty client)) as [Hcount Hnext].
  - repeat constructor; simpl; lia.
  - split; [exact Hcount |]. apply (Hnext 5000). lia.
Defined.

Lemma rateLimit_retryAfter_witness :
  snd (rateLimit 5 60000 client 60001
         (fst (rateLimit 5 60000 client 5000 five_requests))) = None
  /\ snd (rateLimit 5 60000 client 60000
            (fst (rateLimit 5 60000 client 5000 five_requests)))
     = Some (reply 429 (FailureRetry "Too many requests"
                          "RATE_LIMIT_EXCEEDED" 0)).
Proof.
  destruct (rateLimit_retryAfter 5 60000 client 5000 five_requests
              (fst (rateLimit 5 60000 client 5000 five_requests))
              "Too many requests" "RATE_LIMIT_EXCEEDED" 55)
    as (Hlater & record & Hrecord & _ & _ & Hedge).
  - lia.
  - vm_compute. reflexivity.
  - split; [apply Hlater; lia |].
    assert (record = {| count := 6; resetTime := 60000 |}) as ->.
    { vm_compute in Hrecord. congruence. }
    exact Hedge.
Defined.

Lemma rateLimit_keys_independent_witness :
  fst (rateLimit 5 60000 client 5000 five_requests) !! "198.51.100.9" = None.
Proof.
  destruct (rateLimit_keys_independent 5 60000 client "198.51.100.9" 5000
              five_requests five_requests) as [Hother _].
  rewrite Hother; [reflexivity | discriminate].
Defined.

Lemma checkRateLimit_agrees_witness :
  snd (checkRateLimit client 5 60000 5000 five_requests) = false.
Proof.
  destruct (checkRateLimit_agrees client 5 60000 5000 five_requests)
    as [_ Hsame].
  specialize (Hsame ltac:(lia)).
  destruct (snd (checkRateLimit client 5 60000 5000 five_requests));
    [| reflexivity].
  destruct Hsame as [Hthrough _]. specialize (Hthrough eq_refl).
  vm_compute in Hthrough. discriminate Hthrough.
Defined.

Lemma authenticateToken_accepts_refresh_token_witness :
  @authenticateToken sample_env [ada 0 None] 600000000 (refresh_token_of 5)
  = inr (@req_user_of sample_env (ada 0 None)).
Proof.
  apply (@authenticateToken_accepts_refresh_token sample_env
           [ada 0 None] 1 5000 600000000 _ (ada 0 None) []).
  - reflexivity.
  - reflexivity.
  - vm_compute. reflexivity.
Defined.

Lemma refresh_rejects_access_token_witness :
  @refresh sample_env ada_signed_in 1000001000 (access_token_of 1000000)
  = (invalid_refresh_token, []).
Proof.
  apply (@refresh_rejects_access_token sample_env ada_signed_in 1 "user"
           1000000000 1000001000).
  reflexivity.
Defined.

Lemma authorizeRole_uses_stored_role_witness :
  @authenticate_then sample_env (authorizeRole ["super_admin"])
    [ada 0 None] 6000 (admin_token_of 5)
  = inl (inr (InsufficientRole ["super_admin"] "user")).
Proof.
  destruct (@authorizeRole_uses_stored_role sample_env [ada 0 None] 6000
              "your-secret-key-change-in-production"
              {| userId := 1; claim_role := Some "super_admin";
                 claim_type := None; iat := 5; exp := 5 + 24 * 60 * 60 |}
              ["super_admin"] (@req_user_of sample_env (ada 0 None)) eq_refl)
    as (u & rest & Hsel & Hanswer).
  vm_compute in Hsel. injection Hsel as <- <-. exact Hanswer.
Defined.

Lemma authorizePermission_uses_stored_only_witness :
  let admin :=
    {| id := 1; email := ada_email; full_name := "Test User";
       password := "bcrypt:secret"; role := "super_admin";
       permissions := JNull; is_active := true;
       failed_login_attempts := 0; last_failed_login := None;
       last_login := None; refresh_token := None |} in
  hasPermission (role admin) "audit:view" = Return true
  /\ @authenticate_then sample_env (authorizePermission ["audit:view"])
       [admin] 6000 (admin_token_of 5)
     = inl (inr (InsufficientPermissions ["audit:view"] [])).
Proof.
  intros admin. split; [reflexivity |].
  destruct (@authorizePermission_uses_stored_only sample_env [admin] 6000
              "your-secret-key-change-in-production"
              {| userId := 1; claim_role := Some "super_admin";
                 claim_type := None; iat := 5; exp := 5 + 24 * 60 * 60 |}
              ["audit:view"] (@req_user_of sample_env admin) eq_refl)
    as (u & rest & Hsel & _ & Hdenied).
  vm_compute in Hsel. injection Hsel as <- <-.
  apply Hdenied; [reflexivity | discriminate].
Defined.

Lemma login_then_refresh_witness :
  fst (@refresh sample_env
         (@after sample_env [ada 0 None] 5000 (Login ada_email "secret"))
         9000 (refresh_token_of 5))
  = reply 200
      (TokenRefreshed "Token refreshed successfully" (access_token_of 9)
         (refresh_token_of 9))
  /\ pointers 1
       (@after sample_env
          (@after sample_env [ada 0 None] 5000 (Login ada_email "secret"))
          9000 (Refresh (refresh_token_of 5)))
     = [Some (refresh_token_of 9)].
Proof.
  destruct (@login_then_refresh sample_env [ada 0 None] 5000 ada_email
              "secret" (ada 0 None) [] 9000)
    as (_ & Hrefresh & Hpointer).
  - apply NoDup_singleton.
  - repeat split; discriminate.
  - reflexivity.
  - reflexivity.
  - reflexivity.
  - left. simpl. lia.
  - reflexivity.
  - vm_compute. reflexivity.
  - split; [exact Hrefresh | exact Hpointer].
Defined.

Lemma login_then_authenticate_witness :
  exists ru,
    @authenticateToken sample_env
      (@run sample_env
         (@after sample_env [ada 0 None] 5000 (Login ada_email "secret"))
         [(6000, Logout (access_token_of 5));
          (7000, Login ada_email "guess")])
      8000 (access_token_of 5) = inr ru
    /\ req_id ru = 1.
Proof.
  apply (@login_then_authenticate sample_env [ada 0 None] 5000 ada_email
           "secret" (ada 0 None) []
           [(6000, Logout (access_token_of 5));
            (7000, Login ada_email "guess")] 8000).
  - repeat split; discriminate.
  - reflexivity.
  - reflexivity.
  - reflexivity.
  - left. simpl. lia.
  - reflexivity.
  - vm_compute. reflexivity.
Defined.

Lemma refresh_ignores_suspension_witness :
  let suspended :=
    [account 1 ada_email false 0 None (JArr [])
       (Some (refresh_token_of 1000000))] in
  fst (@refresh sample_env suspended 1000005000 (refresh_token_of 1000000))
  = reply 200
      (TokenRefreshed "Token refreshed successfully"
         (access_token_of 1000005) (refresh_token_of 1000005))
  /\ @authenticateToken sample_env
       (@after sample_env suspended 1000005000
          (Refresh (refresh_token_of 1000000)))
       1000005000 (access_token_of 1000005)
     = inl (reply 401 (Failure "User account not found or inactive"
                               "USER_NOT_FOUND")).
Proof.
  intros suspended.
  apply (@refresh_ignores_suspension sample_env suspended 1 1000000000
           1000005000 (refresh_token_of 1000000)
           (account 1 ada_email false 0 None (JArr [])
              (Some (refresh_token_of 1000000))) []).
  - reflexivity.
  - reflexivity.
  - discriminate.
  - vm_compute. reflexivity.
  - reflexivity.
  - vm_compute. reflexivity.
Defined.

Lemma lockout_expires_witness :
  let locked :=
    @run sample_env [ada 0 None]
      (login_attempts ada_email
         ([(1000, "a"); (2000, "b"); (3000, "c"); (4000, "d")]
          ++ [(5000, "e")])) in
  status (fst (@login sample_env locked 905000 ada_email "secret")) = 200
  /\ counters 1 (@after sample_env locked 905000 (Login ada_email "secret"))
     = [0].
Proof.
  intros locked.
  destruct (@lockout_expires sample_env [ada 0 None] ada_email (ada 0 None) []
              [(1000, "a"); (2000, "b"); (3000, "c"); (4000, "d")]
              5000 "e" 905000 "secret")
    as (Hstatus & Hcounter & _).
  - repeat split; discriminate.
  - reflexivity.
  - reflexivity.
  - reflexivity.
  - reflexivity.
  - reflexivity.
  - repeat constructor; discriminate.
  - vm_compute. discriminate.
  - reflexivity.
  - split; [exact Hstatus | exact Hcounter].
Defined.

Lemma lockout_retryAfter_suffices_witness :
  @login sample_env [ada 5 (Some 5000)] 6000 ada_email "secret"
  = (reply 429
       (FailureRetry
          "Account temporarily locked due to too many failed attempts"
          "ACCOUNT_LOCKED" 899), [])
  /\ status (fst (@login sample_env [ada 5 (Some 5000)] 905000 ada_email
                    "secret")) <> 429.
Proof.
  destruct (@lockout_retryAfter_suffices sample_env [ada 5 (Some 5000)] 6000
              ada_email "secret" (ada 5 (Some 5000)) [])
    as (Hlocked & _ & _ & Hlater).
  - repeat split; discriminate.
  - reflexivity.
  - reflexivity.
  - simpl. lia.
  - vm_compute. reflexivity.
  - split; [exact Hlocked |]. apply Hlater. vm_compute. discriminate.
Defined.

Lemma change_password_then_login_witness :
  let users' :=
    snd (@change_password sample_env sample_hash [ada 0 None] 6000
           (access_token_of 5) "secret" "new-secret-1") in
  status (fst (@login sample_env users' 7000 ada_email "new-secret-1")) = 200
  /\ fst (@login sample_env users' 7000 ada_email "secret")
     = reply 401 (Failure "Invalid credentials" "INVALID_CREDENTIALS").
Proof.
  intros users'.
  destruct (@change_password_then_login sample_env sample_hash
              [ada 0 None] 6000 "your-secret-key-change-in-production"
              {| userId := 1; claim_role := Some "user"; claim_type := None;
                 iat := 5; exp := 5 + 24 * 60 * 60 |}
              (@req_user_of sample_env (ada 0 None))
              "secret" "new-secret-1" users' ada_email (ada 0 None) [] 7000)
    as [Hnew Hold].
  - reflexivity.
  - reflexivity.
  - discriminate.
  - reflexivity.
  - reflexivity.
  - discriminate.
  - reflexivity.
  - left. simpl. lia.
  - reflexivity.
  - split; [exact Hnew | apply Hold; reflexivity].
Defined.

Lemma checkPasswordStrength_score_witness :
  strong (checkPasswordStrength "aA1!") = true
  /\ String.length "aA1!" = 4%nat.
Proof.
  split; [| reflexivity].
  apply (checkPasswordStrength_score "aA1!"); reflexivity.
Defined.

Lemma parsePermissions_array_witness :
  ~ In (JStr "all")
      (@parsePermissions sample_env (JArr [JStr "all"; JStr "all"]))
  /\ length (@parsePermissions sample_env (JArr [JStr "all"; JStr "all"]))
     = 2%nat.
Proof.
  destruct (@parsePermissions_array sample_env [JStr "all"; JStr "all"])
    as (Hlength & Hnone & _).
  split; [exact Hnone | exact Hlength].
Defined.
